(** * Strange attractors: particle update rule, input queue and snapshot hand-off

    A shallow embedding of the Vrui demo family [StrangeAttractors.cpp],
    [StrangeAttractorsInputP2.cpp] and [StrangeAttractorsArray.cpp]:

    - the arithmetic of the per-particle update ([float], [double] and
      [GLubyte] as the C++ compiler evaluates them on an IEEE-754 target
      without contraction of multiply-add),
    - the ring buffer the input tool writes seeded particles to,
    - the triple buffer handing particle lists to the rendering thread,
    - [updateMesh], the body of the background thread, the constructor and
      the per-frame callback, over an explicit store of the three buffer
      slots, so that the pointers [oldParticleList] and [oldTimeList] alias
      the slots as they do in the program. *)

From Stdlib Require Import ZArith QArith Qabs Lia Bool.
From Stdlib Require Import Floats.SpecFloat.
From stdpp Require Import base option list sorting.

Set Default Proof Using "Type".
Local Open Scope Z_scope.

(* ===================================================================== *)
(** * Machine arithmetic *)
(* ===================================================================== *)

(** [float] is IEEE-754 binary32 and [double] binary64; both wrap the
    standard library's executable specification of IEEE arithmetic
    (round to nearest, ties to even). *)

Module Machine.

Record float := Float { float_bits : spec_float }.
Record double := Double { double_bits : spec_float }.

(** [GLubyte] is [unsigned char]: an integer in [0, 256). *)
Definition GLubyte := Z.
Definition is_GLubyte (c : GLubyte) : Prop := 0 <= c < 256.

Definition fprec : Z := 24.
Definition femax : Z := 128.
Definition dprec : Z := 53.
Definition demax : Z := 1024.

Definition fadd (x y : float) : float :=
  Float (SFadd fprec femax (float_bits x) (float_bits y)).
Definition fsub (x y : float) : float :=
  Float (SFsub fprec femax (float_bits x) (float_bits y)).
Definition fmul (x y : float) : float :=
  Float (SFmul fprec femax (float_bits x) (float_bits y)).

Definition dadd (x y : double) : double :=
  Double (SFadd dprec demax (double_bits x) (double_bits y)).
Definition dsub (x y : double) : double :=
  Double (SFsub dprec demax (double_bits x) (double_bits y)).
Definition ddiv (x y : double) : double :=
  Double (SFdiv dprec demax (double_bits x) (double_bits y)).

(** [x > y] on doubles; false as soon as one side is a NaN. *)
Definition dgt (x y : double) : bool :=
  SFltb (double_bits y) (double_bits x).

(** Rounding of a sign, mantissa and exponent into a format. *)
Definition round_to (prec emax : Z) (x : spec_float) : spec_float :=
  match x with
  | S754_finite sx mx ex => binary_round prec emax sx mx ex
  | _ => x
  end.

(** Integer to floating point conversions. *)
Definition float_of_int (n : Z) : float :=
  Float (binary_normalize fprec femax n 0 false).
Definition double_of_int (n : Z) : double :=
  Double (binary_normalize dprec demax n 0 false).

(** The implicit conversions between the two formats: widening is exact,
    narrowing rounds. *)
Definition double_of_float (x : float) : double :=
  Double (round_to dprec demax (float_bits x)).
Definition float_of_double (x : double) : float :=
  Float (round_to fprec femax (double_bits x)).

(** A decimal literal [n / 10^k] such as [2.667] has type [double] and
    denotes the double nearest to it; the correctly rounded quotient of
    the two integers (both exact in binary64) is that double. *)
Definition double_literal (n : Z) (k : nat) : double :=
  ddiv (double_of_int n) (double_of_int (10 ^ Z.of_nat k)).

(** Floating point to integer conversion truncates toward zero. *)
Definition truncate (x : spec_float) : Z :=
  match x with
  | S754_finite sx mx ex =>
      cond_Zopp sx
        (match ex with
         | Zneg p => Z.shiftr (Zpos mx) (Zpos p)
         | _ => Z.shiftl (Zpos mx) ex
         end)
  | _ => 0
  end.

(** Conversion of a double to [GLubyte].  The language leaves it undefined
    when the truncated value does not fit; the embedding then reduces
    modulo 256 (and maps infinities and NaN to 0).  [sub_assign_range]
    below shows that the program never reaches those cases. *)
Definition GLubyte_of_double (x : double) : GLubyte :=
  truncate (double_bits x) mod 256.

(** [c -= d] for [c] of type [GLubyte] and [d] of type [double]: [c] is
    promoted to [int], converted to [double], the subtraction is done in
    [double] and the result converted back. *)
Definition sub_assign (c : GLubyte) (d : double) : GLubyte :=
  GLubyte_of_double (dsub (double_of_int c) d).

(** The exact rational value of a finite floating point number. *)
Definition Q_of_spec (x : spec_float) : Q :=
  match x with
  | S754_finite sx mx ex =>
      let m := inject_Z (cond_Zopp sx (Zpos mx)) in
      match ex with
      | Zneg p => (m / inject_Z (2 ^ Zpos p))%Q
      | _ => (m * inject_Z (2 ^ ex))%Q
      end
  | _ => 0%Q
  end.
Definition Q_of_float (x : float) : Q := Q_of_spec (float_bits x).

Definition is_finite (x : spec_float) : bool :=
  match x with
  | S754_finite _ _ _ | S754_zero _ => true
  | _ => false
  end.

(** [x] lies within [eps] of the decimal [q]. *)
Definition near (eps q : Q) (x : float) : Prop :=
  is_finite (float_bits x) = true /\ (Qabs (Q_of_float x - q) < eps)%Q.

End Machine.
Export Machine.

Declare Scope float_scope.
Delimit Scope float_scope with float.
Bind Scope float_scope with float.
Infix "+" := fadd : float_scope.
Infix "-" := fsub : float_scope.
Infix "*" := fmul : float_scope.

(* ===================================================================== *)
(** * Particles *)
(* ===================================================================== *)

(** [GLGeometry::Vertex<void,0,GLubyte,4,void,float,3>]: an RGBA color of
    four [GLubyte] and a position of three [float].  The components
    [color[0]], [color[1]], [color[2]] and [color[3]] are red, green, blue
    and alpha. *)

Record Color := mkColor {
  red : GLubyte;    (* color[0] *)
  green : GLubyte;  (* color[1] *)
  blue : GLubyte;   (* color[2] *)
  alpha : GLubyte   (* color[3] *)
}.

Record Point := mkPoint { p0 : float; p1 : float; p2 : float }.
Record Vector := mkVector { v0 : float; v1 : float; v2 : float }.

Record ParticleVertex := mkParticle { color : Color; position : Point }.

Definition valid_color (c : Color) : Prop :=
  is_GLubyte (red c) /\ is_GLubyte (green c) /\
  is_GLubyte (blue c) /\ is_GLubyte (alpha c).

(** [Vector * scalar] and [Point += Vector] of the geometry library work
    component by component in the scalar type. *)
Definition scale (v : Vector) (a : float) : Vector :=
  mkVector (v0 v * a) (v1 v * a) (v2 v * a).
Definition translate (p : Point) (v : Vector) : Point :=
  mkPoint (p0 p + v0 v) (p1 p + v1 v) (p2 p + v2 v).

Module Lorenz.

(** The locals [s], [r], [b] and [t] of [updateMesh]. *)
Definition s : float := float_of_int 10.
Definition r : float := float_of_int 28.
Definition b : float := float_of_double (double_literal 2667 3).
Definition t : float := float_of_double (double_literal 3 3).

(** The vector [dot]: change at each time step for the Lorenz system. *)
Definition dot (p : Point) : Vector :=
  let x := p0 p in
  let y := p1 p in
  let z := p2 p in
  mkVector (s * (y - x)) (x * (r - z) - y) ((x * y) - (b * z)).

(** [pv.position += dot*t]. *)
Definition advance (p : Point) : Point := translate p (scale (dot p) t).

End Lorenz.

(** The color update of [StrangeAttractors.cpp]: an [if / else if / else]
    chain over green, red and blue, each branch a [-= .1]. *)
Definition tenth : double := double_literal 1 1.

Definition updateColor (c : Color) : Color :=
  if 0 <? green c then
    mkColor (red c) (sub_assign (green c) tenth) (blue c) (alpha c)
  else if 0 <? red c then
    mkColor (sub_assign (red c) tenth) (green c) (blue c) (alpha c)
  else
    mkColor (red c) (green c) (sub_assign (blue c) tenth) (alpha c).

(** The body of the loop of [StrangeAttractors::updateMesh] for a particle
    that is kept. *)
Definition updateParticle (pv : ParticleVertex) : ParticleVertex :=
  mkParticle (updateColor (color pv)) (Lorenz.advance (position pv)).

(** The body of the loop in the variants without color fade
    ([StrangeAttractorsArray.cpp], [StrangeAttractorsInputP2.cpp]). *)
Definition moveParticle (pv : ParticleVertex) : ParticleVertex :=
  mkParticle (color pv) (Lorenz.advance (position pv)).

(* ===================================================================== *)
(** * The ring buffer of seeded particles *)
(* ===================================================================== *)

Module RingBuffer.
Section RingBuffer.
Local Open Scope nat_scope.
Context {T : Type}.

(** Modelled from the spec: [Threads::RingBuffer<T>], whose header
    [Threads/RingBuffer.h] belongs to the toolkit and is not among the
    sources.  The spec calls it BoundedQueue: a fixed-capacity circular
    array of [T], a count of occupied entries and head/tail indices. *)
Record t := mk {
  capacity : nat;
  storage : list (option T);
  head : nat;
  tail : nat;
  count : nat
}.

(** Modelled from the spec: construction with a fixed capacity, as in
    [inputParticles(100)]. *)
Definition create (n : nat) : t := mk n (replicate n None) 0 0 0.

(** Modelled from the spec: [is_empty] and [len]. *)
Definition empty (q : t) : bool := count q =? 0.
Definition size (q : t) : nat := count q.
Definition full (q : t) : bool := capacity q <=? count q.

(** Modelled from the spec: [push] enqueues at the tail if capacity
    allows; on a full queue it fails without touching the queue (the
    recommended drop-and-report policy).  The program calls it [write]
    and ignores the result. *)
Definition write (x : T) (q : t) : bool * t :=
  if full q then (false, q)
  else (true,
        mk (capacity q) (<[tail q := Some x]> (storage q)) (head q)
           (S (tail q) mod capacity q) (S (count q))).

(** Modelled from the spec: [pop] dequeues from the head if non-empty,
    never blocks and returns nothing if empty; the entry is moved out of
    the array.  The program calls it [read]. *)
Definition read (q : t) : option (T * t) :=
  if empty q then None
  else match storage q !! head q with
       | Some (Some x) =>
           Some (x, mk (capacity q) (<[head q := None]> (storage q))
                       (S (head q) mod capacity q) (tail q) (pred (count q)))
       | _ => None
       end.

(** The entry stored at circular position [i]. *)
Definition entry (st : list (option T)) (cap i : nat) : list T :=
  match st !! (i mod cap) with
  | Some (Some x) => [x]
  | _ => []
  end.

(** The [n] entries from circular position [h] on, oldest first. *)
Fixpoint entries (st : list (option T)) (cap h n : nat) : list T :=
  match n with
  | 0 => []
  | S n' => entry st cap h ++ entries st cap (S h) n'
  end.

(** The queued items, oldest first. *)
Definition contents (q : t) : list T :=
  entries (storage q) (capacity q) (head q) (count q).

(** Representation invariant of the circular array. *)
Record wf (q : t) : Prop := {
  wf_length : length (storage q) = capacity q;
  wf_count : count q <= capacity q;
  wf_head : capacity q = 0 \/ head q < capacity q;
  wf_tail : tail q = (head q + count q) mod capacity q;
  wf_filled : forall i, i < count q ->
    exists x, storage q !! ((head q + i) mod capacity q) = Some (Some x)
}.

(** Writing all of [xs] in order, dropping what does not fit. *)
Fixpoint write_all (xs : list T) (q : t) : t :=
  match xs with
  | [] => q
  | x :: xs' => write_all xs' (snd (write x q))
  end.

(** [n] reads in a row. *)
Fixpoint read_n (n : nat) (q : t) : option (list T * t) :=
  match n with
  | 0 => Some ([], q)
  | S n' =>
      match read q with
      | Some (x, q') =>
          match read_n n' q' with
          | Some (xs, q'') => Some (x :: xs, q'')
          | None => None
          end
      | None => None
      end
  end.

End RingBuffer.
Arguments t : clear implicits.
End RingBuffer.

(* ===================================================================== *)
(** * The triple buffer of particle lists *)
(* ===================================================================== *)

Module TripleBuffer.
Section TripleBuffer.
Local Open Scope nat_scope.
Context {T : Type}.

(** Modelled from the spec: [Threads::TripleBuffer<T>], whose header
    [Threads/TripleBuffer.h] belongs to the toolkit and is not among the
    sources.  The spec calls it SnapshotChannel: three storage slots and
    three roles, the producer's write slot, the posted slot and the
    consumer's read slot; which slot plays which role rotates.  [fresh]
    records that a value newer than the consumer's current one has been
    posted, [acquired] that the consumer holds a value at all. *)
Record t := mk {
  buffer : list T;
  writeSlot : nat;
  postedSlot : nat;
  readSlot : nat;
  fresh : bool;
  acquired : bool
}.

(** Modelled from the spec: the three slots start out default
    constructed. *)
Definition create (d : T) : t := mk [d; d; d] 0 1 2 false false.

(** Modelled from the spec: [start_write] gives the producer its private
    write slot.  The program calls it [startNewValue]; the reference it
    returns is the index of the slot. *)
Definition startNewValue (tb : t) : nat := writeSlot tb.

(** Modelled from the spec: [commit_write] publishes the slot just
    written as the posted value; the slot displaced by this becomes the
    producer's next write target.  The program calls it
    [postNewValue]. *)
Definition postNewValue (tb : t) : t :=
  mk (buffer tb) (postedSlot tb) (writeSlot tb) (readSlot tb) true
     (acquired tb).

(** Modelled from the spec: [try_acquire_latest] returns true and makes
    the posted value the consumer's read slot if a value newer than the
    consumer's current one exists, by exchanging the posted and the read
    role; it returns false and leaves the read slot alone otherwise.  The
    program calls it [lockNewValue]. *)
Definition lockNewValue (tb : t) : bool * t :=
  if fresh tb then
    (true, mk (buffer tb) (writeSlot tb) (readSlot tb) (postedSlot tb)
              false true)
  else (false, tb).

(** Modelled from the spec: [read] returns the read slot the consumer
    holds and is valid only after a successful acquire.  The program
    calls it [getLockedValue]. *)
Definition getLockedValue (tb : t) : option T :=
  if acquired tb then buffer tb !! readSlot tb else None.

(** Access to a slot through a reference obtained earlier. *)
Definition slot (tb : t) (i : nat) : option T := buffer tb !! i.
Definition setSlot (i : nat) (v : T) (tb : t) : t :=
  mk (<[i := v]> (buffer tb)) (writeSlot tb) (postedSlot tb) (readSlot tb)
     (fresh tb) (acquired tb).

(** The three roles are played by the three slots. *)
Record wf (tb : t) : Prop := {
  wf_slots : length (buffer tb) = 3;
  wf_write : writeSlot tb < 3;
  wf_posted : postedSlot tb < 3;
  wf_read : readSlot tb < 3;
  wf_write_posted : writeSlot tb <> postedSlot tb;
  wf_write_read : writeSlot tb <> readSlot tb;
  wf_posted_read : postedSlot tb <> readSlot tb
}.

End TripleBuffer.
Arguments t : clear implicits.
End TripleBuffer.

(* ===================================================================== *)
(** * The application [StrangeAttractors] *)
(* ===================================================================== *)

Module StrangeAttractors.
Local Open Scope nat_scope.

(** [struct ParticleTimeList]: the particles and, index by index, the
    application time at which each of them expires. *)
Record ParticleTimeList := mkLists {
  particleList : list ParticleVertex;
  timeList : list float
}.

(** Both [push_back] calls of a loop body. *)
Definition push_back (this : ParticleTimeList) (pv : ParticleVertex)
    (tp : float) : ParticleTimeList :=
  mkLists (particleList this ++ [pv]) (timeList this ++ [tp]).

(** The members of the application object.  The pointers
    [oldParticleList] and [oldTimeList] point into a slot of
    [particleVertices] and are represented by the index of that slot.
    The source of [vertexBuffer] is a vertex count and a pointer to the
    vertices, again a slot; nothing is set before the first frame. *)
Record t := mk {
  initParticleSize : nat;
  timeDecay : float;
  particleVertices : TripleBuffer.t ParticleTimeList;
  inputParticles : RingBuffer.t ParticleVertex;
  oldParticleList : nat;
  oldTimeList : nat;
  vertexBuffer : option (nat * nat)
}.

(** The clock [Vrui::getApplicationTime()] belongs to the toolkit and is
    advanced by the foreground thread; a function takes as [time] the
    values its successive calls return, [time k] for call number [k]. *)
Definition Clock := nat -> double.

(** The first loop of [updateMesh], over the old particle list with the
    old time list walked in step.  Running the time iterator past the
    end of its list is undefined and yields [None]. *)
Fixpoint integrate (time : Clock) (k : nat)
    (opl : list ParticleVertex) (otl : list float)
    (this : ParticleTimeList) : option ParticleTimeList :=
  match opl with
  | [] => Some this
  | pv :: opl' =>
      match otl with
      | [] => None
      | tp :: otl' =>
          if dgt (double_of_float tp) (time k)
          then integrate time (S k) opl' otl'
                 (push_back this (updateParticle pv) tp)
          else integrate time (S k) opl' otl' this
      end
  end.

(** The expiry of a particle born at time [now]: the sum is computed in
    [double] and stored in a list of [float]. *)
Definition expiry (now : double) (decay : float) : float :=
  float_of_double (dadd now (double_of_float decay)).

(** The second loop of [updateMesh]: [while(!inputParticles.empty())].
    [fuel] bounds the number of iterations; [None] when it runs out or
    when a read fails. *)
Fixpoint drain (fuel : nat) (time : Clock) (k : nat) (decay : float)
    (q : RingBuffer.t ParticleVertex) (this : ParticleTimeList)
    : option (ParticleTimeList * RingBuffer.t ParticleVertex) :=
  if RingBuffer.empty q then Some (this, q)
  else match fuel with
       | 0 => None
       | S fuel' =>
           match RingBuffer.read q with
           | Some (pv, q') =>
               drain fuel' time (S k) decay q'
                 (push_back this pv (expiry (time k) decay))
           | None => None
           end
       end.

(** [updateMesh(thisParticleTimeList)], the argument being the slot [w]
    the reference designates.  The two [clear] calls come first; the old
    lists are then read through the pointers, so that they are empty when
    the pointers designate [w] itself.  The queue holds [size] items when
    the second loop starts, which bounds its iterations. *)
Definition updateMesh (time : Clock) (w : nat) (app : t) : option t :=
  let tb := TripleBuffer.setSlot w (mkLists [] []) (particleVertices app) in
  opl ← particleList <$> TripleBuffer.slot tb (oldParticleList app);
  otl ← timeList <$> TripleBuffer.slot tb (oldTimeList app);
  this ← TripleBuffer.slot tb w;
  this' ← integrate time 0 opl otl this;
  '(this'', q') ← drain (RingBuffer.size (inputParticles app)) time
                    (length opl) (timeDecay app) (inputParticles app) this';
  Some (mk (initParticleSize app) (timeDecay app)
           (TripleBuffer.setSlot w this'' tb) q' w w (vertexBuffer app)).

(** One iteration of the loop of [strangeAttractorsThreadMethod], split
    at the point where the new value is complete but not yet posted. *)
Definition writeNewValue (time : Clock) (app : t) : option t :=
  updateMesh time (TripleBuffer.startNewValue (particleVertices app)) app.

Definition postNewValue (app : t) : t :=
  mk (initParticleSize app) (timeDecay app)
     (TripleBuffer.postNewValue (particleVertices app))
     (inputParticles app) (oldParticleList app) (oldTimeList app)
     (vertexBuffer app).

Definition threadIteration (time : Clock) (app : t) : option t :=
  postNewValue <$> writeNewValue time app.

(** [n] iterations of the thread's loop, iteration [i] reading the clock
    [clocks i]. *)
Fixpoint strangeAttractorsThreadMethod (n : nat) (clocks : nat -> Clock)
    (app : t) : option t :=
  match n with
  | 0 => Some app
  | S n' =>
      app' ← strangeAttractorsThreadMethod n' clocks app;
      threadIteration (clocks n') app'
  end.

(** The loop of the constructor; [rand i] is the particle drawn at
    iteration [i]. *)
Fixpoint initParticles (n : nat) (rand : nat -> ParticleVertex)
    (time : Clock) (decay : float) (i : nat) (this : ParticleTimeList)
    : ParticleTimeList :=
  match n with
  | 0 => this
  | S n' =>
      initParticles n' rand time decay (S i)
        (push_back this (rand i) (expiry (time i) decay))
  end.

(** The lists the constructor fills: 100 particles living 10 seconds. *)
Definition initialLists (rand : nat -> ParticleVertex) (time : Clock)
    : ParticleTimeList :=
  initParticles 100 rand time (float_of_int 10) 0 (mkLists [] []).

(** The constructor, up to the start of the background thread. *)
Definition create (rand : nat -> ParticleVertex) (time : Clock) : t :=
  let tb := TripleBuffer.create (mkLists [] []) in
  let w := TripleBuffer.startNewValue tb in
  mk 100 (float_of_int 10)
     (TripleBuffer.postNewValue
        (TripleBuffer.setSlot w (initialLists rand time) tb))
     (RingBuffer.create 100) w w None.

(** [StrangeAttractors::frame]. *)
Definition frame (app : t) : t :=
  let (isNew, tb) := TripleBuffer.lockNewValue (particleVertices app) in
  if isNew then
    match TripleBuffer.getLockedValue tb with
    | Some thisParticleList =>
        mk (initParticleSize app) (timeDecay app) tb (inputParticles app)
           (oldParticleList app) (oldTimeList app)
           (Some (length (particleList thisParticleList),
                  TripleBuffer.readSlot tb))
    | None =>
        mk (initParticleSize app) (timeDecay app) tb (inputParticles app)
           (oldParticleList app) (oldTimeList app) (vertexBuffer app)
    end
  else app.

(** What [display] draws: the vertices the source of the vertex buffer
    points to, read at the time of the call. *)
Definition display (app : t) : option (list ParticleVertex) :=
  '(n, p) ← vertexBuffer app;
  this ← TripleBuffer.slot (particleVertices app) p;
  Some (take n (particleList this)).

(** [SeedParticlesTool::frame] with the button pressed: the particle it
    built is written to the ring buffer. *)
Definition seedParticle (pv : ParticleVertex) (app : t) : t :=
  mk (initParticleSize app) (timeDecay app) (particleVertices app)
     (snd (RingBuffer.write pv (inputParticles app)))
     (oldParticleList app) (oldTimeList app) (vertexBuffer app).

End StrangeAttractors.

(* ===================================================================== *)
(** * The two threads *)
(* ===================================================================== *)

Module System.
Import StrangeAttractors.
Local Open Scope nat_scope.

(** The application object together with the position of the background
    thread in its loop ([pending]: the new value is written but not yet
    posted) and a history variable listing the values posted so far. *)
Record t := mk {
  app : StrangeAttractors.t;
  pending : bool;
  published : list ParticleTimeList
}.

(** The atomic actions of the foreground thread ([Seed], [Frame]) and of
    the background thread ([Write], [Post]). *)
Inductive action :=
| Seed (pv : ParticleVertex)
| Frame
| Write (time : Clock)
| Post.

Definition is_Frame (a : action) : bool :=
  match a with Frame => true | _ => false end.
Definition is_Post (a : action) : bool :=
  match a with Post => true | _ => false end.

Definition step (a : action) (s : t) : option t :=
  match a with
  | Seed pv => Some (mk (seedParticle pv (app s)) (pending s) (published s))
  | Frame => Some (mk (frame (app s)) (pending s) (published s))
  | Write time =>
      if pending s then None
      else app' ← writeNewValue time (app s);
           Some (mk app' true (published s))
  | Post =>
      if pending s then
        let tb := particleVertices (app s) in
        this ← TripleBuffer.slot tb (TripleBuffer.writeSlot tb);
        Some (mk (postNewValue (app s)) false (published s ++ [this]))
      else None
  end.

Fixpoint run (tr : list action) (s : t) : option t :=
  match tr with
  | [] => Some s
  | a :: tr' => s' ← step a s; run tr' s'
  end.

(** The state the constructor leaves: its own value is posted. *)
Definition init (rand : nat -> ParticleVertex) (time : Clock) : t :=
  mk (create rand time) false [initialLists rand time].

(** The states the two threads can reach. *)
Definition reachable (s : t) : Prop :=
  exists rand time tr, run tr (init rand time) = Some s.

(** What the producer may have stored in its write slot while a write is
    in progress: anything. *)
Definition scribble (v : ParticleTimeList) (s : t) : t :=
  let a := app s in
  mk (StrangeAttractors.mk (initParticleSize a) (timeDecay a)
        (TripleBuffer.setSlot
           (TripleBuffer.writeSlot (particleVertices a)) v
           (particleVertices a))
        (inputParticles a) (oldParticleList a) (oldTimeList a)
        (vertexBuffer a))
     (pending s) (published s).

End System.

(* ===================================================================== *)
(** * The variants without expiry *)
(* ===================================================================== *)

(** [StrangeAttractorsArray.cpp] and [StrangeAttractorsInputP2.cpp] keep a
    plain particle list in each slot of the triple buffer and a pointer
    [opl] to the list of the previous step.  As in [StrangeAttractors],
    the pointer is represented by the index of the slot it points into,
    and so is the reference [pl] that [updateMesh] is given. *)

Module Animation.
Local Open Scope nat_scope.

(** The members of the application object of
    [StrangeAttractorsArray.cpp]. *)
Record t := mk {
  initParticleSize : nat;
  particleVertices : TripleBuffer.t (list ParticleVertex);
  opl : nat;
  vertexBuffer : option (nat * nat)
}.

(** The loop of [Animation::updateMesh]: [opl] is what is left of the
    list being read, [pl] the list appended to. *)
Fixpoint integrate (opl pl : list ParticleVertex) : list ParticleVertex :=
  match opl with
  | [] => pl
  | pv :: opl' => integrate opl' (pl ++ [moveParticle pv])
  end.

(** [Animation::updateMesh(pl)], the argument being the slot [w] the
    reference designates.  [pl.clear()] comes first; the list [*opl]
    is read after it, so that it is empty when [opl] designates [w]
    itself. *)
Definition updateMesh (w : nat) (a : t) : option t :=
  let tb := TripleBuffer.setSlot w [] (particleVertices a) in
  old ← TripleBuffer.slot tb (opl a);
  pl ← TripleBuffer.slot tb w;
  Some (mk (initParticleSize a)
           (TripleBuffer.setSlot w (integrate old pl) tb) w
           (vertexBuffer a)).

(** One iteration of the loop of [animationThreadMethod], split at the
    point where the new value is complete but not yet posted. *)
Definition writeNewValue (a : t) : option t :=
  updateMesh (TripleBuffer.startNewValue (particleVertices a)) a.

Definition postNewValue (a : t) : t :=
  mk (initParticleSize a)
     (TripleBuffer.postNewValue (particleVertices a)) (opl a)
     (vertexBuffer a).

Definition threadIteration (a : t) : option t :=
  postNewValue <$> writeNewValue a.

(** [n] iterations of the thread's loop. *)
Fixpoint animationThreadMethod (n : nat) (a : t) : option t :=
  match n with
  | 0 => Some a
  | S n' => a' ← animationThreadMethod n' a; threadIteration a'
  end.

(** The loop of the constructor; [rand i] is the particle drawn at
    iteration [i]. *)
Fixpoint initParticles (n : nat) (rand : nat -> ParticleVertex) (i : nat)
    (pl : list ParticleVertex) : list ParticleVertex :=
  match n with
  | 0 => pl
  | S n' => initParticles n' rand (S i) (pl ++ [rand i])
  end.

(** The constructor, up to the start of the background thread: 1000
    particles. *)
Definition create (rand : nat -> ParticleVertex) : t :=
  let tb := TripleBuffer.create [] in
  let w := TripleBuffer.startNewValue tb in
  mk 1000
     (TripleBuffer.postNewValue
        (TripleBuffer.setSlot w (initParticles 1000 rand 0 []) tb))
     w None.

(** [Animation::frame]. *)
Definition frame (a : t) : t :=
  let (isNew, tb) := TripleBuffer.lockNewValue (particleVertices a) in
  if isNew then
    match TripleBuffer.getLockedValue tb with
    | Some pl =>
        mk (initParticleSize a) tb (opl a)
           (Some (length pl, TripleBuffer.readSlot tb))
    | None => mk (initParticleSize a) tb (opl a) (vertexBuffer a)
    end
  else a.

(** The two threads: the application object and the position of the
    background thread in its loop ([pending]: the new value is written
    but not yet posted). *)
Record state := mkState {
  app : t;
  pending : bool
}.

(** The atomic actions of the foreground thread ([Frame]) and of the
    background thread ([Write], [Post]). *)
Inductive action := Frame | Write | Post.

Definition is_Write (x : action) : bool :=
  match x with Write => true | _ => false end.

Definition step (x : action) (s : state) : option state :=
  match x with
  | Frame => Some (mkState (frame (app s)) (pending s))
  | Write =>
      if pending s then None
      else a' ← writeNewValue (app s); Some (mkState a' true)
  | Post =>
      if pending s then Some (mkState (postNewValue (app s)) false)
      else None
  end.

Fixpoint run (tr : list action) (s : state) : option state :=
  match tr with
  | [] => Some s
  | x :: tr' => s' ← step x s; run tr' s'
  end.

(** The state the constructor leaves. *)
Definition init (rand : nat -> ParticleVertex) : state :=
  mkState (create rand) false.

End Animation.

Module InputP2.
Local Open Scope nat_scope.

(** The members of the application object of
    [StrangeAttractorsInputP2.cpp]. *)
Record t := mk {
  initParticleSize : nat;
  particleVertices : TripleBuffer.t (list ParticleVertex);
  inputParticles : RingBuffer.t ParticleVertex;
  opl : nat;
  vertexBuffer : option (nat * nat)
}.

(** The second loop of [updateMesh] in [StrangeAttractorsInputP2.cpp]:
    no expiry is recorded.  [fuel] bounds the number of iterations. *)
Fixpoint drain (fuel : nat) (q : RingBuffer.t ParticleVertex)
    (pl : list ParticleVertex)
    : option (list ParticleVertex * RingBuffer.t ParticleVertex) :=
  if RingBuffer.empty q then Some (pl, q)
  else match fuel with
       | 0 => None
       | S fuel' =>
           match RingBuffer.read q with
           | Some (pv, q') => drain fuel' q' (pl ++ [pv])
           | None => None
           end
       end.

(** [StrangeAttractors::updateMesh(pl)] of that file, the argument
    being the slot [w]: [pl.clear()], the loop over [*opl] as read
    after the clear, the loop over the queue, [opl = &pl]. *)
Definition updateMesh (w : nat) (a : t) : option t :=
  let tb := TripleBuffer.setSlot w [] (particleVertices a) in
  old ← TripleBuffer.slot tb (opl a);
  pl ← TripleBuffer.slot tb w;
  '(pl', q') ← drain (RingBuffer.size (inputParticles a))
                 (inputParticles a) (Animation.integrate old pl);
  Some (mk (initParticleSize a) (TripleBuffer.setSlot w pl' tb) q' w
           (vertexBuffer a)).

End InputP2.

(* ===================================================================== *)
(** * Vocabulary for the statements *)
(* ===================================================================== *)

Module Tick.
Import StrangeAttractors.
Local Open Scope nat_scope.

(** The expiry stored at index [i] of the old time list is still in the
    future when the loop, started at call [k] of the clock, reaches it. *)
Definition alive (time : Clock) (k : nat) (otl : list float) (i : nat)
    : bool :=
  match otl !! i with
  | Some tp => dgt (double_of_float tp) (time (k + i))
  | None => false
  end.

(** The indices below [n] of the old lists whose particle is alive, in
    increasing order. *)
Definition keptIndices (time : Clock) (k : nat) (otl : list float)
    (n : nat) : list nat :=
  filter (fun i => alive time k otl i) (seq 0 n).

(** The number of alive particles before index [i]: the place an alive
    particle at index [i] takes in the new lists. *)
Definition rank (time : Clock) (otl : list float) (i : nat) : nat :=
  length (keptIndices time 0 otl i).

(** The particles and expiries that the first loop hands on. *)
Definition keptParticles (opl : list ParticleVertex) (ks : list nat)
    : list ParticleVertex :=
  omap (fun i => updateParticle <$> opl !! i) ks.
Definition keptTimes (otl : list float) (ks : list nat) : list float :=
  omap (fun i => otl !! i) ks.

(** The expiries given to the particles read from the queue, the first
    of them at call [k] of the clock. *)
Definition birthTimes (time : Clock) (k : nat) (decay : float)
    (pvs : list ParticleVertex) : list float :=
  imap (fun j _ => expiry (time (k + j)) decay) pvs.

(** The value that [updateMesh] leaves in the slot it writes, given the
    old lists and the queued particles. *)
Definition newLists (time : Clock) (decay : float)
    (old : ParticleTimeList) (queued : list ParticleVertex)
    : ParticleTimeList :=
  let ks := keptIndices time 0 (timeList old) (length (particleList old)) in
  mkLists (keptParticles (particleList old) ks ++ queued)
          (keptTimes (timeList old) ks ++
           birthTimes time (length (particleList old)) decay queued).

(** One full iteration of the background thread, seen from the
    system. *)
Definition tick (time : Clock) (s : System.t) : option System.t :=
  s' ← System.step (System.Write time) s; System.step System.Post s'.

(** [n] iterations in a row, iteration [i] reading the clock
    [clocks i]. *)
Fixpoint ticks (n : nat) (clocks : nat -> Clock) (s : System.t)
    : option System.t :=
  match n with
  | 0 => Some s
  | S n' => s' ← ticks n' clocks s; tick (clocks n') s'
  end.

(** What the rendering thread holds and draws in a state, and what its
    next call of [lockNewValue] would answer. *)
Definition locked (s : System.t) : option ParticleTimeList :=
  TripleBuffer.getLockedValue (particleVertices (System.app s)).
Definition drawn (s : System.t) : option (list ParticleVertex) :=
  display (System.app s).
Definition hasNew (s : System.t) : bool :=
  fst (TripleBuffer.lockNewValue (particleVertices (System.app s))).

(** The snapshot posted last. *)
Definition snapshot (s : System.t) : option ParticleTimeList :=
  last (System.published s).

End Tick.

(* ===================================================================== *)
(** * Invariants of the running program *)
(* ===================================================================== *)

Module Invariant.
Import StrangeAttractors.
Local Open Scope nat_scope.

(** The slot holding the most recently posted value: the posted slot
    while the consumer has not taken it, else the consumer's slot. *)
Definition latestSlot {T} (tb : TripleBuffer.t T) : nat :=
  if TripleBuffer.fresh tb then TripleBuffer.postedSlot tb
  else TripleBuffer.readSlot tb.

(** The source a frame gives the vertex buffer when it has locked the
    read slot. *)
Definition lockedSource (tb : TripleBuffer.t ParticleTimeList)
    : option (nat * nat) :=
  if TripleBuffer.acquired tb then
    this ← TripleBuffer.slot tb (TripleBuffer.readSlot tb);
    Some (length (particleList this), TripleBuffer.readSlot tb)
  else None.

(** Consistency of the application object. *)
Record app_ok (a : StrangeAttractors.t) : Prop := {
  ok_buffer : TripleBuffer.wf (particleVertices a);
  ok_queue : RingBuffer.wf (inputParticles a);
  ok_old : oldTimeList a = oldParticleList a;
  ok_lengths : forall i this,
    TripleBuffer.slot (particleVertices a) i = Some this ->
    length (particleList this) = length (timeList this);
  ok_source : vertexBuffer a = lockedSource (particleVertices a);
  ok_constants :
    initParticleSize a = 100 /\ timeDecay a = float_of_int 10 /\
    RingBuffer.capacity (inputParticles a) = 100
}.

(** Consistency of the two threads: where the old pointers point, and
    how the history of posted values relates to the slots. *)
Record inv (s : System.t) : Prop := {
  inv_app : app_ok (System.app s);
  inv_old :
    oldParticleList (System.app s) =
    if System.pending s
    then TripleBuffer.writeSlot (particleVertices (System.app s))
    else latestSlot (particleVertices (System.app s));
  inv_acquired :
    TripleBuffer.fresh (particleVertices (System.app s)) = false ->
    TripleBuffer.acquired (particleVertices (System.app s)) = true;
  inv_latest :
    TripleBuffer.slot (particleVertices (System.app s))
      (latestSlot (particleVertices (System.app s))) =
    last (System.published s);
  inv_locked : forall this,
    TripleBuffer.getLockedValue (particleVertices (System.app s)) =
      Some this ->
    this ∈ System.published s
}.

End Invariant.

(** The outcome of [c -= .1] on every value of a [GLubyte], checked
    against "one less, but 0 stays 0". *)
Definition sub_assign_table : bool :=
  forallb (fun n => sub_assign (Z.of_nat n) tenth =?
                    (if 0 <? Z.of_nat n then Z.of_nat n - 1 else 0))
          (seq 0 256).

(* ===================================================================== *)
(** * Sample inputs *)
(* ===================================================================== *)

Module Demo.
Import StrangeAttractors.

Definition one : float := float_of_int 1.

(** A particle at position (1,1,1). *)
Definition particle : ParticleVertex :=
  mkParticle (mkColor 200 100 50 255) (mkPoint one one one).

(** A constructor drawing that particle every time, at time 0. *)
Definition rand : nat -> ParticleVertex := fun _ => particle.
Definition at_time (n : Z) : Clock := fun _ => double_of_int n.
Definition start : System.t := System.init rand (at_time 0).

(** Two seeded particles, told apart by their alpha channel. *)
Definition seedA : ParticleVertex :=
  mkParticle (mkColor 1 2 3 254) (mkPoint one one one).
Definition seedB : ParticleVertex :=
  mkParticle (mkColor 1 2 3 253) (mkPoint one one one).

(** The state reached from [start] by a trace, [start] itself if the
    trace cannot be run. *)
Definition after (tr : list System.action) : System.t :=
  default start (System.run tr start).

(** The rendering thread has taken the constructor's snapshot. *)
Definition framed_trace : list System.action := [System.Frame].
Definition framed : System.t := after framed_trace.

(** After that frame a particle is seeded and the thread's loop runs
    twice, at time 5 and at time 12. *)
Definition rendered_tail : list System.action :=
  [System.Seed seedA; System.Write (at_time 5); System.Post;
   System.Write (at_time 12); System.Post].
Definition rendered : System.t := after (framed_trace ++ rendered_tail).

(** Two particles are queued. *)
Definition seeded_trace : list System.action :=
  [System.Seed seedA; System.Seed seedB].
Definition seeded : System.t := after seeded_trace.

(** The snapshot holds the constructor's 100 particles, expiring at
    time 10, then [seedA], expiring at time 15; [seedB] is queued. *)
Definition mixed_trace : list System.action :=
  [System.Seed seedA; System.Write (at_time 5); System.Post;
   System.Seed seedB].
Definition mixed : System.t := after mixed_trace.

(** The snapshot holds the constructor's 100 particles, expiring at
    time 10, then [seedA] and [seedB], expiring at time 15;
    [particle] is queued. *)
Definition ordered_trace : list System.action :=
  [System.Seed seedA; System.Seed seedB; System.Write (at_time 5);
   System.Post; System.Seed particle].
Definition ordered : System.t := after ordered_trace.

(** The expiries given at time 0 and at time 5. *)
Definition ten : float := expiry (double_of_int 0) (float_of_int 10).
Definition fifteen : float := expiry (double_of_int 5) (float_of_int 10).

End Demo.

(* ===================================================================== *)
(** * More of the program: the input tool, the fade over time, the
      array variant *)
(* ===================================================================== *)

(** Conversion of an [int] to [GLubyte]: reduction modulo 256. *)
Definition GLubyte_of_int (n : Z) : GLubyte := n mod 256.

(** A particle as the constructor and the tool make them: channels in
    the range of [GLubyte], alpha 255. *)
Definition opaque (pv : ParticleVertex) : Prop :=
  valid_color (color pv) /\ alpha (color pv) = 255.

Module SeedParticlesTool.
Import StrangeAttractors.

(** The values returned by the six calls of [Math::randUniformCO] in
    [SeedParticlesTool::frame] of [StrangeAttractors.cpp]: three
    [float] offsets and three [int] color channels. *)
Record Draws := mkDraws {
  offset0 : float; offset1 : float; offset2 : float;
  channel0 : Z; channel1 : Z; channel2 : Z
}.

(** The particle the tool builds.  [devicePosition] is the position of
    the button device in navigation coordinates, as the toolkit's
    [inverseTransform] returns it. *)
Definition newParticle (devicePosition : Point) (d : Draws)
    : ParticleVertex :=
  mkParticle
    (mkColor (GLubyte_of_int (channel0 d)) (GLubyte_of_int (channel1 d))
             (GLubyte_of_int (channel2 d)) 255)
    (mkPoint (p0 devicePosition + offset0 d)
             (p1 devicePosition + offset1 d)
             (p2 devicePosition + offset2 d)).

(** [SeedParticlesTool::frame]: nothing happens unless the button is
    pressed. *)
Definition frame (buttonState : bool) (devicePosition : Point)
    (d : Draws) (app : StrangeAttractors.t) : StrangeAttractors.t :=
  if buttonState then seedParticle (newParticle devicePosition d) app
  else app.

End SeedParticlesTool.

(** The color a particle has after [n] updates: green is used up first,
    what is left of [n] goes to red, and what is left then to blue. *)
Definition faded (n : nat) (c : Color) : Color :=
  let k := Z.of_nat n in
  let k1 := Z.max 0 (k - green c) in
  let k2 := Z.max 0 (k1 - red c) in
  mkColor (Z.max 0 (red c - k1)) (Z.max 0 (green c - k))
          (Z.max 0 (blue c - k2)) (alpha c).

Module Animation1.
Local Open Scope nat_scope.

(** [StrangeAttractors1.cpp]: the triple buffer holds three pointers to
    arrays of [particleSize] vertices, allocated by the constructor.
    [arrays] is the memory holding them; a pointer to an array is its
    index in [arrays], and [oldParticles] is such a pointer. *)
Record t := mk {
  particleSize : nat;
  arrays : list (list ParticleVertex);
  oldParticles : nat
}.

(** Reading and writing element [i] of the array [p] points to; both
    are undefined, here [None], outside the allocated memory. *)
Definition load (h : list (list ParticleVertex)) (p i : nat)
    : option ParticleVertex :=
  a ← h !! p; a !! i.

Definition store (h : list (list ParticleVertex)) (p i : nat)
    (f : ParticleVertex -> ParticleVertex)
    : option (list (list ParticleVertex)) :=
  a ← h !! p; v ← a !! i; Some (<[p := <[i := f v]> a]> h).

(** Assignments to single components of a vertex. *)
Definition set_position0 (v : float) (pv : ParticleVertex) :=
  mkParticle (color pv)
    (mkPoint v (p1 (position pv)) (p2 (position pv))).
Definition set_position1 (v : float) (pv : ParticleVertex) :=
  mkParticle (color pv)
    (mkPoint (p0 (position pv)) v (p2 (position pv))).
Definition set_position2 (v : float) (pv : ParticleVertex) :=
  mkParticle (color pv)
    (mkPoint (p0 (position pv)) (p1 (position pv)) v).
Definition set_color0 (c : GLubyte) (pv : ParticleVertex) :=
  mkParticle (mkColor c (green (color pv)) (blue (color pv))
                (alpha (color pv))) (position pv).
Definition set_color1 (c : GLubyte) (pv : ParticleVertex) :=
  mkParticle (mkColor (red (color pv)) c (blue (color pv))
                (alpha (color pv))) (position pv).
Definition set_color2 (c : GLubyte) (pv : ParticleVertex) :=
  mkParticle (mkColor (red (color pv)) (green (color pv)) c
                (alpha (color pv))) (position pv).
Definition set_color3 (c : GLubyte) (pv : ParticleVertex) :=
  mkParticle (mkColor (red (color pv)) (green (color pv))
                (blue (color pv)) c) (position pv).

(** The body of the loop of [Animation::updateMesh] for element [i]:
    [pPtr] is element [i] of the array [pv], [oldPtr] element [i] of
    the array [old].  Every right-hand side reads through [oldPtr] at
    the time of its assignment. *)
Definition iteration (h : list (list ParticleVertex)) (pv old i : nat)
    : option (list (list ParticleVertex)) :=
  o ← load h old i;
  let x := p0 (position o) in
  let y := p1 (position o) in
  let z := p2 (position o) in
  let x_dot := (Lorenz.s * (y - x))%float in
  let y_dot := (x * (Lorenz.r - z) - y)%float in
  let z_dot := ((x * y) - (Lorenz.b * z))%float in
  let t := Lorenz.t in
  o ← load h old i;
  h ← store h pv i (set_position0 (p0 (position o) + t * x_dot)%float);
  o ← load h old i;
  h ← store h pv i (set_position1 (p1 (position o) + t * y_dot)%float);
  o ← load h old i;
  h ← store h pv i (set_position2 (p2 (position o) + t * z_dot)%float);
  o ← load h old i;
  h ← store h pv i (set_color0 (red (color o)));
  o ← load h old i;
  h ← store h pv i (set_color1 (green (color o)));
  o ← load h old i;
  h ← store h pv i (set_color2 (blue (color o)));
  o ← load h old i;
  store h pv i (set_color3 (alpha (color o))).

(** The loop, [n] elements from element [i] on. *)
Fixpoint loop (n i : nat) (h : list (list ParticleVertex)) (pv old : nat)
    : option (list (list ParticleVertex)) :=
  match n with
  | 0 => Some h
  | S n' => h' ← iteration h pv old i; loop n' (S i) h' pv old
  end.

(** [Animation::updateMesh(pv)]. *)
Definition updateMesh (pv : nat) (a : t) : option t :=
  h ← loop (particleSize a) 0 (arrays a) pv (oldParticles a);
  Some (mk (particleSize a) h pv).

End Animation1.

Module InputP1.
Local Open Scope nat_scope.

(** The loop of [Animation::addParticles] of
    [StrangeAttractorsInputP1.cpp] for two separate lists: [apl] is
    what is left of the list being read, [pl] the list appended to,
    and [draws j] are the three values drawn for the particle at index
    [j]. *)
Fixpoint addLoop (pl apl : list ParticleVertex)
    (draws : nat -> Z * Z * Z) (j : nat) : list ParticleVertex :=
  match apl with
  | [] => pl
  | pv :: apl' =>
      let '(c0, c1, c2) := draws j in
      addLoop
        (pl ++ [mkParticle
                  (mkColor (GLubyte_of_int c0) (GLubyte_of_int c1)
                           (GLubyte_of_int c2) 255%Z) (position pv)])
        apl' draws (S j)
  end.

(** [Animation::addParticles(pl, apl)]: [pl] is a reference and [apl] a
    pointer, each represented by the index of the list it designates
    in the memory [h].  When both designate the same list and that
    list is empty, the loop is not entered.  When both designate the
    same non-empty list, the loop appends to the vector it iterates
    over: the end moves away with every pass and the iterator is
    invalidated once the vector has to grow.  That behaviour is
    undefined, here [None], as is a pointer to no list. *)
Definition addParticles (h : list (list ParticleVertex)) (pl apl : nat)
    (draws : nat -> Z * Z * Z) : option (list (list ParticleVertex)) :=
  p ← h !! pl;
  a ← h !! apl;
  if decide (pl = apl) then
    match a with
    | [] => Some h
    | _ :: _ => None
    end
  else Some (<[pl := addLoop p a draws 0]> h).

End InputP1.

(** Consistency of the two threads of [StrangeAttractorsArray.cpp]: the
    roles of the triple buffer are played by its three slots, and [opl]
    designates the slot written last. *)
Definition Animation_inv (s : Animation.state) : Prop :=
  let a := Animation.app s in
  let tb := Animation.particleVertices a in
  TripleBuffer.wf tb /\
  Animation.opl a =
    (if Animation.pending s then TripleBuffer.writeSlot tb
     else Invariant.latestSlot tb).

(** The number of [Write] actions of a trace. *)
Definition writes (tr : list Animation.action) : nat :=
  length (filter (fun x => Animation.is_Write x = true) tr).



(* ===================================================================== *)
(** * Facts about the ring buffer *)
(* ===================================================================== *)

Section RingBufferFacts.
Local Open Scope nat_scope.
Context {T : Type}.
Implicit Types (q : RingBuffer.t T) (x : T) (st : list (option T)).
Import RingBuffer.

(** Two circular positions less than a full turn apart differ. *)
Lemma mod_offset_ne cap h i j :
  i < j -> j < cap + i -> (h + i) mod cap <> (h + j) mod cap.
Proof.
  intros Hij Hj Heq.
  pose proof (Nat.div_mod_eq (h + i) cap) as E1.
  pose proof (Nat.div_mod_eq (h + j) cap) as E2.
  rewrite Heq in E1.
  assert (Hd : j - i = cap * ((h + j) / cap - (h + i) / cap)) by nia.
  destruct ((h + j) / cap - (h + i) / cap) as [|d]; nia.
Qed.

Lemma mod_succ_congr cap h h' :
  h mod cap = h' mod cap -> S h mod cap = S h' mod cap.
Proof.
  intros E. change (S h) with (1 + h). change (S h') with (1 + h').
  rewrite <- (Nat.Div0.add_mod_idemp_r 1 h), <- (Nat.Div0.add_mod_idemp_r 1 h').
  by rewrite E.
Qed.

Lemma entries_congr st cap h h' n :
  h mod cap = h' mod cap -> entries st cap h n = entries st cap h' n.
Proof.
  revert h h'. induction n as [|n IH]; intros h h' E; [done|].
  simpl. f_equal.
  - unfold entry. by rewrite E.
  - apply IH, mod_succ_congr, E.
Qed.

Lemma entries_snoc st cap h n :
  entries st cap h (S n) = entries st cap h n ++ entry st cap (h + n).
Proof.
  revert h. induction n as [|n IH]; intros h.
  - simpl. by rewrite Nat.add_0_r, app_nil_r.
  - change (entries st cap h (S (S n)))
      with (entry st cap h ++ entries st cap (S h) (S n)).
    rewrite IH. simpl. rewrite <- app_assoc.
    by rewrite Nat.add_succ_r.
Qed.

(** Overwriting a position outside the occupied range leaves the
    entries alone. *)
Lemma entries_insert_outside st cap h n k v :
  (forall i, i < n -> (h + i) mod cap <> k) ->
  entries (<[k := v]> st) cap h n = entries st cap h n.
Proof.
  revert h. induction n as [|n IH]; intros h Hk; [done|].
  simpl. f_equal.
  - unfold entry. rewrite list_lookup_insert_ne; [done|].
    intros E. apply (Hk 0); [lia|]. by rewrite Nat.add_0_r.
  - apply IH. intros i Hi. replace (S h + i) with (h + S i) by lia.
    apply Hk. lia.
Qed.

Lemma entries_length st cap h n :
  (forall i, i < n -> exists x, st !! ((h + i) mod cap) = Some (Some x)) ->
  length (entries st cap h n) = n.
Proof.
  revert h. induction n as [|n IH]; intros h Hf; [done|].
  simpl. rewrite length_app. rewrite IH.
  - destruct (Hf 0) as [x Hx]; [lia|]. rewrite Nat.add_0_r in Hx.
    unfold entry. by rewrite Hx.
  - intros i Hi. replace (S h + i) with (h + S i) by lia. apply Hf. lia.
Qed.

Lemma wf_create n : wf (create (T := T) n).
Proof.
  split; simpl.
  - apply length_replicate.
  - lia.
  - destruct n; [by left | right; lia].
  - by rewrite Nat.Div0.mod_0_l.
  - lia.
Qed.

Lemma contents_create n : contents (create (T := T) n) = [].
Proof. done. Qed.

Lemma contents_length q : wf q -> length (contents q) = count q.
Proof. intros Hq. apply entries_length, Hq. Qed.

Lemma empty_contents q : wf q -> empty q = true <-> contents q = [].
Proof.
  intros Hq. unfold empty. rewrite Nat.eqb_eq.
  rewrite <- (contents_length q Hq). by destruct (contents q).
Qed.

(** A write that finds room appends at the end of the contents. *)
Lemma write_room q x :
  wf q -> count q < capacity q ->
  exists q', write x q = (true, q') /\ wf q' /\
             contents q' = contents q ++ [x] /\
             capacity q' = capacity q.
Proof.
  intros Hq Hroom. destruct Hq as [Hlen Hcnt Hhead Htail Hfill].
  unfold write, full.
  destruct (Nat.leb_spec (capacity q) (count q)) as [?|_]; [lia|].
  eexists; split; [reflexivity|].
  assert (Htl : tail q < length (storage q)).
  { rewrite Htail, Hlen. apply Nat.mod_upper_bound. lia. }
  split; [split; simpl|split; [|done]].
  - by rewrite length_insert.
  - lia.
  - done.
  - rewrite Htail. replace (head q + S (count q)) with (S (head q + count q)) by lia.
    apply mod_succ_congr. by rewrite Nat.Div0.mod_mod.
  - intros i Hi. destruct (decide (i = count q)) as [->|Hne].
    + exists x. rewrite <- Htail. by apply list_lookup_insert_eq.
    + rewrite list_lookup_insert_ne; [apply Hfill; lia|].
      rewrite Htail. intros E. symmetry in E. revert E.
      apply mod_offset_ne; lia.
  - unfold contents. cbn [storage capacity head count]. rewrite entries_snoc.
    rewrite entries_insert_outside.
    + f_equal. unfold entry. rewrite <- Htail.
      by rewrite list_lookup_insert_eq.
    + intros i Hi. rewrite Htail. apply mod_offset_ne; lia.
Qed.

(** A write to a full queue is refused and changes nothing. *)
Lemma write_full q x :
  capacity q <= count q -> write x q = (false, q).
Proof.
  intros Hfull. unfold write, full.
  by destruct (Nat.leb_spec (capacity q) (count q)) as [_|?]; [|lia].
Qed.

Lemma write_capacity q x : capacity (snd (write x q)) = capacity q.
Proof. unfold write. by destruct (full q). Qed.

Lemma write_wf q x : wf q -> wf (snd (write x q)).
Proof.
  intros Hq. destruct (Nat.le_gt_cases (capacity q) (count q)) as [Hf|Hr].
  - by rewrite write_full.
  - destruct (write_room q x Hq Hr) as (q' & -> & Hq' & _). done.
Qed.

(** A read takes the oldest item off the contents. *)
Lemma read_contents q :
  wf q ->
  match contents q with
  | [] => read q = None
  | x :: l =>
      exists q', read q = Some (x, q') /\ wf q' /\ contents q' = l /\
                 count q = S (count q') /\ capacity q' = capacity q
  end.
Proof.
  intros Hq. pose proof (contents_length q Hq) as Hlen.
  destruct Hq as [Hst Hcnt Hhead Htail Hfill].
  unfold read, empty. unfold contents in *.
  destruct (count q) as [|n] eqn:Hn; simpl in *; [done|].
  destruct (Hfill 0) as [x Hx]; [lia|].
  assert (Hcap : head q < capacity q) by (destruct Hhead; lia).
  rewrite Nat.add_0_r, Nat.mod_small in Hx by done.
  unfold entry at 1. rewrite Nat.mod_small by done. rewrite Hx. simpl.
  eexists; split; [reflexivity|].
  assert (Hout : forall i, i < n -> (S (head q) + i) mod capacity q <> head q).
  { intros i Hi. replace (S (head q) + i) with (head q + S i) by lia.
    rewrite <- (Nat.mod_small (head q) (capacity q)) at 2 by done.
    rewrite <- (Nat.add_0_r (head q)) at 2.
    intros E. symmetry in E. revert E. apply mod_offset_ne; lia. }
  split; [split; simpl|split; [|done]].
  - by rewrite length_insert.
  - lia.
  - right. apply Nat.mod_upper_bound. lia.
  - rewrite Htail. rewrite Nat.Div0.add_mod_idemp_l. f_equal. lia.
  - intros i Hi. rewrite Nat.Div0.add_mod_idemp_l.
    rewrite list_lookup_insert_ne by (apply not_eq_sym, Hout; done).
    replace (S (head q) + i) with (head q + S i) by lia. apply Hfill. lia.
  - simpl. rewrite (entries_congr _ _ _ (S (head q))) by apply Nat.Div0.mod_mod.
    by apply entries_insert_outside.
Qed.

Lemma read_n_contents n q :
  wf q -> n <= count q ->
  exists q', read_n n q = Some (take n (contents q), q') /\ wf q' /\
             contents q' = drop n (contents q).
Proof.
  revert q. induction n as [|n IH]; intros q Hq Hn; simpl.
  - exists q. by rewrite take_0, drop_0.
  - pose proof (read_contents q Hq) as Hr.
    pose proof (contents_length q Hq) as Hlen.
    destruct (contents q) as [|x l]; simpl in *; [lia|].
    destruct Hr as (q' & -> & Hq' & Hc & Hcnt & _).
    destruct (IH q' Hq') as (q'' & -> & Hq'' & Hc''); [lia|].
    exists q''. subst l. by simpl.
Qed.

Lemma write_all_room xs q :
  wf q -> count q + length xs <= capacity q ->
  wf (write_all xs q) /\ contents (write_all xs q) = contents q ++ xs /\
  count (write_all xs q) = count q + length xs.
Proof.
  revert q. induction xs as [|x xs IH]; intros q Hq Hroom; simpl in *.
  - by rewrite app_nil_r, Nat.add_0_r.
  - destruct (write_room q x Hq) as (q' & Hw & Hq' & Hc & Hcap); [lia|].
    rewrite Hw; simpl.
    pose proof (contents_length q Hq). pose proof (contents_length q' Hq') as Hl'.
    rewrite Hc, length_app in Hl'. simpl in Hl'.
    destruct (IH q' Hq') as (? & Hc' & ?); [lia|].
    split; [done|]. split; [|lia].
    by rewrite Hc', Hc, <- app_assoc.
Qed.

(** Writing any items: those that find room are queued in order, the
    others are dropped. *)
Lemma write_all_contents xs q :
  wf q ->
  wf (write_all xs q) /\
  contents (write_all xs q) = contents q ++ take (capacity q - count q) xs.
Proof.
  revert q. induction xs as [|x xs IH]; intros q Hq; simpl.
  - by rewrite take_nil, app_nil_r.
  - destruct (Nat.le_gt_cases (capacity q) (count q)) as [Hfull|Hroom].
    + rewrite write_full by done. simpl.
      destruct (IH q Hq) as [Hw Hc]. split; [done|]. rewrite Hc.
      by replace (capacity q - count q) with 0 by lia.
    + destruct (write_room q x Hq Hroom) as (q' & Hw & Hq' & Hc & Hcap).
      rewrite Hw. simpl. destruct (IH q' Hq') as [Hw' Hc']. split; [done|].
      rewrite Hc', Hc, <- app_assoc. simpl.
      pose proof (contents_length q Hq) as Hl.
      pose proof (contents_length q' Hq') as Hl'.
      rewrite Hc, length_app in Hl'. simpl in Hl'.
      replace (capacity q - count q) with (S (capacity q' - count q')) by lia.
      done.
Qed.

End RingBufferFacts.

(* ===================================================================== *)
(** * The loops of [updateMesh] *)
(* ===================================================================== *)

Section Loops.
Local Open Scope nat_scope.
Import StrangeAttractors Tick.
Implicit Types (opl : list ParticleVertex) (otl : list float)
  (this : ParticleTimeList) (time : Clock).

Lemma filter_fmap_S (P : nat -> Prop) `{forall i, Decision (P i)} (l : list nat) :
  filter P (S <$> l) = S <$> filter (fun i => P (S i)) l.
Proof.
  induction l as [|i l IH]; [done|]. rewrite fmap_cons.
  rewrite !filter_cons. destruct (decide (P (S i))); simpl; by rewrite IH.
Qed.

Lemma omap_fmap_S {A} (f : nat -> option A) (l : list nat) :
  omap f (S <$> l) = omap (fun i => f (S i)) l.
Proof.
  induction l as [|i l IH]; [done|]. rewrite fmap_cons.
  change (omap f (S i :: (S <$> l)))
    with (match f (S i) with
          | Some y => y :: omap f (S <$> l)
          | None => omap f (S <$> l)
          end).
  by rewrite IH.
Qed.

Lemma keptIndices_cons time k tp otl n :
  keptIndices time k (tp :: otl) (S n) =
  (if dgt (double_of_float tp) (time k) then [0] else []) ++
  (S <$> keptIndices time (S k) otl n).
Proof.
  unfold keptIndices. rewrite <- cons_seq, <- fmap_S_seq.
  rewrite filter_cons, filter_fmap_S.
  assert (E : filter (fun i => alive time k (tp :: otl) (S i)) (seq 0 n) =
              filter (fun i => alive time (S k) otl i) (seq 0 n)).
  { apply list_filter_iff. intros i. unfold alive. simpl.
    by rewrite Nat.add_succ_r. }
  rewrite E.
  assert (H0 : alive time k (tp :: otl) 0 = dgt (double_of_float tp) (time k)).
  { unfold alive. simpl. by rewrite Nat.add_0_r. }
  destruct (decide (alive time k (tp :: otl) 0)) as [Ha|Ha];
    rewrite H0 in Ha; by destruct (dgt (double_of_float tp) (time k)).
Qed.

(** The first loop appends the updated particles at the kept indices,
    with their expiries, in increasing order of index. *)
Lemma integrate_spec time k opl otl this :
  length opl <= length otl ->
  integrate time k opl otl this =
  Some (let ks := keptIndices time k otl (length opl) in
        mkLists (particleList this ++ keptParticles opl ks)
                (timeList this ++ keptTimes otl ks)).
Proof.
  revert k otl this. induction opl as [|pv opl IH]; intros k otl this Hlen.
  - simpl. rewrite !app_nil_r. by destruct this.
  - destruct otl as [|tp otl]; simpl in Hlen; [lia|].
    cbn [integrate length]. cbv zeta in *. rewrite keptIndices_cons.
    unfold keptParticles, keptTimes in *.
    rewrite !omap_app, !omap_fmap_S.
    destruct (dgt (double_of_float tp) (time k)); rewrite IH by lia; simpl.
    + by rewrite <- !app_assoc.
    + done.
Qed.

(** Without enough expiries the iterator of the time list runs past its
    end. *)
Lemma integrate_short time k opl otl this :
  length otl < length opl -> integrate time k opl otl this = None.
Proof.
  revert k otl this. induction opl as [|pv opl IH]; intros k otl this Hlen;
    simpl in *; [lia|].
  destruct otl as [|tp otl]; [done|]. simpl in Hlen.
  destruct (dgt _ _); apply IH; lia.
Qed.

(** The second loop moves the whole contents of the queue, oldest first,
    to the end of the lists, and leaves the queue empty; as many
    iterations as there are queued items suffice. *)
Lemma drain_spec fuel time k decay (q : RingBuffer.t ParticleVertex) this :
  RingBuffer.wf q -> RingBuffer.count q <= fuel ->
  exists q',
    drain fuel time k decay q this =
    Some (mkLists (particleList this ++ RingBuffer.contents q)
                  (timeList this ++
                   birthTimes time k decay (RingBuffer.contents q)), q') /\
    RingBuffer.wf q' /\ RingBuffer.contents q' = [] /\
    RingBuffer.empty q' = true /\
    RingBuffer.capacity q' = RingBuffer.capacity q.
Proof.
  revert k q this. induction fuel as [|fuel IH]; intros k q this Hq Hfuel.
  - assert (Hc : RingBuffer.count q = 0) by lia.
    assert (He : RingBuffer.empty q = true)
      by (unfold RingBuffer.empty; by rewrite Hc).
    exists q. simpl. rewrite He.
    pose proof (proj1 (empty_contents q Hq) He) as ->.
    unfold birthTimes. simpl. rewrite !app_nil_r. by destruct this.
  - simpl. destruct (RingBuffer.empty q) eqn:He.
    + exists q. pose proof (proj1 (empty_contents q Hq) He) as Hc.
      rewrite Hc. unfold birthTimes. simpl. rewrite !app_nil_r.
      by destruct this.
    + pose proof (read_contents q Hq) as Hr.
      destruct (RingBuffer.contents q) as [|pv l] eqn:Hc.
      { apply (empty_contents q Hq) in Hc. congruence. }
      destruct Hr as (q' & -> & Hq' & Hc' & Hcnt & Hcap).
      destruct (IH (S k) q' (push_back this pv (expiry (time k) decay)) Hq')
        as (q'' & -> & Hq'' & Hc'' & He'' & Hcap''); [lia|].
      exists q''. split; [|by rewrite Hcap'', Hcap].
      unfold push_back, birthTimes. simpl.
      rewrite Hc', <- !app_assoc. simpl. rewrite Nat.add_0_r.
      do 5 f_equal. apply imap_ext. intros j x _. simpl.
      by rewrite Nat.add_succ_r.
Qed.

End Loops.

(* ===================================================================== *)
(** * [updateMesh] on the store, and the invariants *)
(* ===================================================================== *)

Section UpdateMesh.
Local Open Scope nat_scope.
Import StrangeAttractors Tick Invariant.

Lemma alive_lt time k otl i : alive time k otl i -> i < length otl.
Proof.
  unfold alive. destruct (otl !! i) eqn:E; [|done].
  intros _. by eapply lookup_lt_Some.
Qed.

Lemma elem_of_keptIndices time k otl n i :
  i ∈ keptIndices time k otl n <-> i < n /\ alive time k otl i.
Proof.
  unfold keptIndices. rewrite list_elem_of_filter, elem_of_seq.
  split; intros [? ?]; (split; [done || lia | done || lia]).
Qed.

Lemma length_omap_total {A B} (f : A -> option B) (l : list A) :
  (forall x, x ∈ l -> is_Some (f x)) -> length (omap f l) = length l.
Proof.
  induction l as [|x l IH]; intros Hf; [done|].
  destruct (Hf x) as [y Hy]; [left|].
  change (omap f (x :: l))
    with (match f x with Some y => y :: omap f l | None => omap f l end).
  rewrite Hy. simpl. rewrite IH; [done|]. intros z Hz. apply Hf. by right.
Qed.

Lemma length_keptParticles time k opl otl :
  length (keptParticles opl (keptIndices time k otl (length opl))) =
  length (keptIndices time k otl (length opl)).
Proof.
  apply length_omap_total. intros i [Hi _]%elem_of_keptIndices.
  destruct (lookup_lt_is_Some_2 opl i Hi) as [pv ->]. by eexists.
Qed.

Lemma length_keptTimes time k otl n :
  length (keptTimes otl (keptIndices time k otl n)) =
  length (keptIndices time k otl n).
Proof.
  apply length_omap_total. intros i [_ Hi]%elem_of_keptIndices.
  apply lookup_lt_is_Some_2. by eapply alive_lt.
Qed.

Lemma length_newLists time decay old queued :
  length (particleList (newLists time decay old queued)) =
  length (timeList (newLists time decay old queued)).
Proof.
  unfold newLists. simpl. rewrite !length_app.
  rewrite length_keptParticles, length_keptTimes.
  unfold birthTimes. by rewrite length_imap.
Qed.

(** [updateMesh] on a slot other than the one the old pointers
    designate: it terminates, replaces the slot by the new lists
    computed from the old ones and from the queue, empties the queue and
    redirects the old pointers. *)
Lemma updateMesh_spec time w a old :
  app_ok a -> w < 3 -> w <> oldParticleList a ->
  TripleBuffer.slot (particleVertices a) (oldParticleList a) = Some old ->
  exists q',
    updateMesh time w a =
    Some (mk (initParticleSize a) (timeDecay a)
            (TripleBuffer.setSlot w
               (newLists time (timeDecay a) old
                  (RingBuffer.contents (inputParticles a)))
               (particleVertices a))
            q' w w (vertexBuffer a)) /\
    RingBuffer.wf q' /\ RingBuffer.contents q' = [] /\
    RingBuffer.empty q' = true /\
    RingBuffer.capacity q' = RingBuffer.capacity (inputParticles a).
Proof.
  intros Hok Hw Hne Hold. destruct Hok as [Htb Hq Heq Hlens _ _].
  unfold updateMesh. rewrite Heq.
  unfold TripleBuffer.slot, TripleBuffer.setSlot in *. cbn [TripleBuffer.buffer].
  rewrite (list_lookup_insert_ne _ w (oldParticleList a)) by done.
  rewrite Hold. simpl.
  rewrite list_lookup_insert_eq by (by rewrite (TripleBuffer.wf_slots _ Htb)).
  simpl. rewrite integrate_spec by (by rewrite (Hlens _ _ Hold)).
  simpl.
  destruct (drain_spec (RingBuffer.size (inputParticles a)) time
              (length (particleList old)) (timeDecay a) (inputParticles a)
              (mkLists
                 (keptParticles (particleList old)
                    (keptIndices time 0 (timeList old)
                       (length (particleList old))))
                 (keptTimes (timeList old)
                    (keptIndices time 0 (timeList old)
                       (length (particleList old))))) Hq)
    as (q' & Hd & Hq' & Hc' & He' & Hcap'); [done|].
  exists q'. split; [|done].
  cbv zeta. rewrite Hd. simpl. by rewrite list_insert_insert_eq.
Qed.

(** When the slot written is the one the old pointers designate, the
    old lists are gone before they are read: nothing survives. *)
Lemma updateMesh_aliased time w a :
  app_ok a -> w < 3 -> w = oldParticleList a ->
  exists q',
    updateMesh time w a =
    Some (mk (initParticleSize a) (timeDecay a)
            (TripleBuffer.setSlot w
               (newLists time (timeDecay a) (mkLists [] [])
                  (RingBuffer.contents (inputParticles a)))
               (particleVertices a))
            q' w w (vertexBuffer a)).
Proof.
  intros Hok Hw Hne. destruct Hok as [Htb Hq Heq Hlens _ _].
  unfold updateMesh. rewrite Heq, <- Hne.
  unfold TripleBuffer.slot, TripleBuffer.setSlot in *. cbn [TripleBuffer.buffer].
  rewrite list_lookup_insert_eq by (by rewrite (TripleBuffer.wf_slots _ Htb)).
  simpl.
  destruct (drain_spec (RingBuffer.size (inputParticles a)) time
              0 (timeDecay a) (inputParticles a) (mkLists [] []) Hq)
    as (q' & Hd & _); [done|].
  exists q'. rewrite Hd. simpl. by rewrite list_insert_insert_eq.
Qed.

End UpdateMesh.

(* ===================================================================== *)
(** * Every reachable state satisfies the invariants *)
(* ===================================================================== *)

Section Reachability.
Local Open Scope nat_scope.
Import StrangeAttractors Tick Invariant.

Lemma wf_postNewValue {T} (tb : TripleBuffer.t T) :
  TripleBuffer.wf tb -> TripleBuffer.wf (TripleBuffer.postNewValue tb).
Proof. intros []. by split. Qed.

Lemma wf_setSlot {T} i (v : T) (tb : TripleBuffer.t T) :
  TripleBuffer.wf tb -> TripleBuffer.wf (TripleBuffer.setSlot i v tb).
Proof. intros []. split; simpl; try done. by rewrite length_insert. Qed.

Lemma wf_lockNewValue {T} (tb : TripleBuffer.t T) :
  TripleBuffer.wf tb -> TripleBuffer.wf (snd (TripleBuffer.lockNewValue tb)).
Proof.
  intros Htb. unfold TripleBuffer.lockNewValue.
  destruct (TripleBuffer.fresh tb); [|done]. destruct Htb. by split.
Qed.

Lemma slot_is_Some {T} (tb : TripleBuffer.t T) i :
  TripleBuffer.wf tb -> i < 3 -> is_Some (TripleBuffer.slot tb i).
Proof.
  intros Htb Hi. apply lookup_lt_is_Some_2.
  by rewrite (TripleBuffer.wf_slots _ Htb).
Qed.

Lemma latestSlot_lt {T} (tb : TripleBuffer.t T) :
  TripleBuffer.wf tb -> latestSlot tb < 3.
Proof. intros []. unfold latestSlot. by destruct (TripleBuffer.fresh tb). Qed.

Lemma latestSlot_ne_write {T} (tb : TripleBuffer.t T) :
  TripleBuffer.wf tb -> TripleBuffer.writeSlot tb <> latestSlot tb.
Proof. intros []. unfold latestSlot. by destruct (TripleBuffer.fresh tb). Qed.

Lemma length_initParticles n rand time decay i this :
  length (particleList this) = length (timeList this) ->
  length (particleList (initParticles n rand time decay i this)) =
  length (timeList (initParticles n rand time decay i this)).
Proof.
  revert i this. induction n as [|n IH]; intros i this Hlen; [done|].
  simpl. apply IH. simpl. rewrite !length_app. simpl. lia.
Qed.

Lemma init_inv rand time : inv (System.init rand time).
Proof.
  split; simpl; try done.
  - split; simpl; try done.
    + split; simpl; lia.
    + apply wf_create.
    + intros i this. unfold TripleBuffer.slot. simpl.
      destruct i as [|[|[|i]]]; simpl; intros [= <-]; [|done..].
      by apply length_initParticles.
Qed.

(** In a consistent state the thread's write always succeeds, and its
    effect is that of [updateMesh_spec] on the latest posted value. *)
Lemma writeNewValue_spec time s :
  inv s -> System.pending s = false ->
  exists old q',
    last (System.published s) = Some old /\
    writeNewValue time (System.app s) =
    Some (let a := System.app s in
          let w := TripleBuffer.writeSlot (particleVertices a) in
          mk (initParticleSize a) (timeDecay a)
            (TripleBuffer.setSlot w
               (newLists time (timeDecay a) old
                  (RingBuffer.contents (inputParticles a)))
               (particleVertices a))
            q' w w (vertexBuffer a)) /\
    RingBuffer.wf q' /\ RingBuffer.contents q' = [] /\
    RingBuffer.empty q' = true /\
    RingBuffer.capacity q' =
      RingBuffer.capacity (inputParticles (System.app s)).
Proof.
  intros [Hok Hold Hacq Hlast Hlock] Hp. rewrite Hp in Hold.
  pose proof (ok_buffer _ Hok) as Htb.
  destruct (slot_is_Some _ _ Htb (latestSlot_lt _ Htb)) as [old Ho].
  exists old.
  destruct (updateMesh_spec time
              (TripleBuffer.writeSlot (particleVertices (System.app s)))
              (System.app s) old Hok) as (q' & Hu & Hrest).
  - apply Htb.
  - rewrite Hold. by apply latestSlot_ne_write.
  - by rewrite Hold.
  - exists q'. split; [by rewrite <- Hlast|]. by split.
Qed.

Lemma step_inv a s s' : inv s -> System.step a s = Some s' -> inv s'.
Proof.
  intros Hinv Hstep. pose proof Hinv as [Hok Hold Hacq Hlast Hlock].
  pose proof Hok as [Htb Hq Heq Hlens Hsrc Hk].
  destruct a as [pv| |time|]; simpl in Hstep.
  - (* Seed *)
    injection Hstep as <-. split; simpl; try done.
    split; simpl; try done; [by apply write_wf|].
    by rewrite write_capacity.
  - (* Frame *)
    injection Hstep as <-. unfold frame, TripleBuffer.lockNewValue.
    destruct (TripleBuffer.fresh (particleVertices (System.app s))) eqn:Hf;
      [|by destruct s].
    unfold TripleBuffer.getLockedValue. cbn [TripleBuffer.acquired
      TripleBuffer.buffer TripleBuffer.readSlot].
    destruct (slot_is_Some _ (TripleBuffer.postedSlot
                (particleVertices (System.app s))) Htb) as [this Hthis];
      [apply Htb|].
    unfold TripleBuffer.slot in Hthis. rewrite Hthis.
    unfold latestSlot in *. rewrite Hf in *.
    split; simpl; try done.
    + split; simpl; try done.
      * destruct Htb. by split.
      * unfold lockedSource, TripleBuffer.slot. simpl. by rewrite Hthis.
    + intros this'. unfold TripleBuffer.getLockedValue. simpl.
      rewrite Hthis. intros [= <-].
      unfold TripleBuffer.slot in Hlast. rewrite Hthis in Hlast.
      by apply last_Some_elem_of.
  - (* Write *)
    destruct (System.pending s) eqn:Hp; [done|].
    destruct (writeNewValue_spec time s Hinv Hp)
      as (old & q' & Hlo & Hw & Hq' & Hc' & He' & Hcap').
    rewrite Hw in Hstep. simpl in Hstep. injection Hstep as <-.
    assert (Hwr : TripleBuffer.writeSlot (particleVertices (System.app s)) < 3)
      by apply Htb.
    pose proof (latestSlot_ne_write _ Htb) as Hne.
    split; simpl; try done.
    + split; simpl; try done.
      * by apply wf_setSlot.
      * intros i this. unfold TripleBuffer.slot. simpl.
        destruct (decide (TripleBuffer.writeSlot
                    (particleVertices (System.app s)) = i)) as [<-|Hi].
        -- rewrite list_lookup_insert_eq
             by (by rewrite (TripleBuffer.wf_slots _ Htb)).
           intros [= <-]. apply length_newLists.
        -- rewrite list_lookup_insert_ne by done. apply Hlens.
      * rewrite Hsrc. unfold lockedSource, TripleBuffer.slot. simpl.
        destruct (TripleBuffer.acquired _); [|done].
        rewrite list_lookup_insert_ne; [done|]. apply Htb.
      * by rewrite Hcap'.
    + unfold latestSlot, TripleBuffer.slot in *. simpl.
      by rewrite list_lookup_insert_ne.
    + intros this. unfold TripleBuffer.getLockedValue. simpl.
      intros Hthis. apply Hlock. unfold TripleBuffer.getLockedValue.
      destruct (TripleBuffer.acquired _); [|done].
      rewrite list_lookup_insert_ne in Hthis; [done|]. apply Htb.
  - (* Post *)
    destruct (System.pending s) eqn:Hp; [|done].
    destruct (slot_is_Some _ (TripleBuffer.writeSlot
                (particleVertices (System.app s))) Htb) as [this Hthis];
      [apply Htb|].
    rewrite Hthis in Hstep. simpl in Hstep. injection Hstep as <-.
    split; simpl; try done.
    + split; simpl; try done. by apply wf_postNewValue.
    + unfold latestSlot. simpl. by rewrite last_snoc.
    + intros this' Hl. apply elem_of_app. left. by apply Hlock.
Qed.

Lemma run_inv tr s s' : inv s -> System.run tr s = Some s' -> inv s'.
Proof.
  revert s. induction tr as [|a tr IH]; intros s Hinv; simpl.
  - by intros [= <-].
  - destruct (System.step a s) as [s1|] eqn:Hs; [|done]. simpl.
    apply IH. by eapply step_inv.
Qed.

Lemma reachable_inv s : System.reachable s -> inv s.
Proof. intros (rand & time & tr & Hrun). eapply run_inv, Hrun. apply init_inv. Qed.

End Reachability.

(* ===================================================================== *)
(** * One tick, from one posted snapshot to the next *)
(* ===================================================================== *)

Section TickFacts.
Local Open Scope nat_scope.
Import StrangeAttractors Tick Invariant.

Lemma keptIndices_split time k otl i n :
  i <= n ->
  keptIndices time k otl n =
  keptIndices time k otl i ++
  filter (fun j => alive time k otl j) (seq i (n - i)).
Proof.
  intros Hi. unfold keptIndices. rewrite <- filter_app. f_equal.
  replace n with (i + (n - i)) at 1 by lia. by rewrite seq_app.
Qed.

Lemma rank_le time otl i j : i <= j -> rank time otl i <= rank time otl j.
Proof.
  intros Hij. unfold rank. rewrite (keptIndices_split _ _ _ i j Hij).
  rewrite length_app. lia.
Qed.

(** The alive index [i] is entry number [rank i] of the kept indices. *)
Lemma keptIndices_lookup time otl n i :
  i < n -> alive time 0 otl i ->
  keptIndices time 0 otl n !! rank time otl i = Some i.
Proof.
  intros Hi Ha. rewrite (keptIndices_split _ _ _ i n) by lia.
  rewrite lookup_app_r by done. unfold rank. rewrite Nat.sub_diag.
  destruct (n - i) as [|m] eqn:E; [lia|]. simpl.
  by rewrite filter_cons_True.
Qed.

Lemma rank_lt time otl i j :
  i < j -> alive time 0 otl i -> rank time otl i < rank time otl j.
Proof.
  intros Hij Ha.
  pose proof (keptIndices_lookup time otl j i Hij Ha) as Hl.
  by apply lookup_lt_Some in Hl.
Qed.

(** Entries of the kept indices come in strictly increasing order. *)
Lemma keptIndices_sorted time k otl n :
  StronglySorted lt (keptIndices time k otl n).
Proof.
  unfold keptIndices. generalize 0 as j. induction n as [|n IH]; intros j.
  - constructor.
  - simpl. rewrite filter_cons. destruct (decide _); [|apply IH].
    constructor; [apply IH|]. apply Forall_forall.
    intros x [_ Hx%elem_of_seq]%list_elem_of_filter. lia.
Qed.

Lemma lookup_omap_total {A B} (f : A -> option B) (l : list A) j :
  (forall x, x ∈ l -> is_Some (f x)) -> omap f l !! j = l !! j ≫= f.
Proof.
  revert j. induction l as [|x l IH]; intros j Hf; [done|].
  destruct (Hf x) as [y Hy]; [left|].
  change (omap f (x :: l))
    with (match f x with Some y => y :: omap f l | None => omap f l end).
  rewrite Hy. destruct j as [|j]; simpl; [done|].
  apply IH. intros z Hz. apply Hf. by right.
Qed.

Lemma keptParticles_lookup time otl opl j :
  keptParticles opl (keptIndices time 0 otl (length opl)) !! j =
  keptIndices time 0 otl (length opl) !! j ≫=
    (fun i => updateParticle <$> opl !! i).
Proof.
  apply lookup_omap_total. intros i [Hi _]%elem_of_keptIndices.
  destruct (lookup_lt_is_Some_2 opl i Hi) as [pv ->]. by eexists.
Qed.

Lemma keptTimes_lookup time otl n j :
  keptTimes otl (keptIndices time 0 otl n) !! j =
  keptIndices time 0 otl n !! j ≫= (fun i => otl !! i).
Proof.
  apply lookup_omap_total. intros i [_ Hi]%elem_of_keptIndices.
  apply lookup_lt_is_Some_2. by eapply alive_lt.
Qed.

(** Where an alive particle of the old lists is found in the new ones. *)
Lemma newLists_survivor time decay old queued i pv tp :
  particleList old !! i = Some pv -> timeList old !! i = Some tp ->
  dgt (double_of_float tp) (time i) = true ->
  particleList (newLists time decay old queued) !! rank time (timeList old) i
    = Some (updateParticle pv) /\
  timeList (newLists time decay old queued) !! rank time (timeList old) i
    = Some tp.
Proof.
  intros Hpv Htp Hgt. unfold newLists. simpl.
  assert (Hi : i < length (particleList old)) by by eapply lookup_lt_Some.
  assert (Ha : alive time 0 (timeList old) i).
  { unfold alive. rewrite Htp. simpl. by rewrite Hgt. }
  pose proof (keptIndices_lookup time (timeList old) _ i Hi Ha) as Hk.
  pose proof (lookup_lt_Some _ _ _ Hk) as Hr.
  split.
  - rewrite lookup_app_l by (by rewrite length_keptParticles).
    rewrite keptParticles_lookup, Hk. simpl. by rewrite Hpv.
  - rewrite lookup_app_l by (by rewrite length_keptTimes).
    rewrite keptTimes_lookup, Hk. simpl. done.
Qed.

(** Every entry of the new lists below the number of alive particles
    stems from an alive particle of the old lists. *)
Lemma newLists_origin time decay old queued j pv' :
  length (particleList old) = length (timeList old) ->
  j < rank time (timeList old) (length (particleList old)) ->
  particleList (newLists time decay old queued) !! j = Some pv' ->
  exists i pv tp,
    particleList old !! i = Some pv /\ timeList old !! i = Some tp /\
    dgt (double_of_float tp) (time i) = true /\
    j = rank time (timeList old) i /\ pv' = updateParticle pv.
Proof.
  intros Hlen Hj. unfold newLists, rank in *. simpl.
  rewrite lookup_app_l by (by rewrite length_keptParticles).
  rewrite keptParticles_lookup.
  destruct (keptIndices time 0 (timeList old) (length (particleList old)) !! j)
    as [i|] eqn:Hk; [|done]. simpl.
  pose proof (list_elem_of_lookup_2 _ _ _ Hk) as [Hi Ha]%elem_of_keptIndices.
  destruct (particleList old !! i) as [pv|] eqn:Hpv; [|done].
  simpl. intros [= <-]. unfold alive in Ha.
  destruct (timeList old !! i) as [tp|] eqn:Htp; [|done].
  exists i, pv, tp. repeat split; try done.
  - simpl in Ha. by apply Is_true_true.
  - pose proof (keptIndices_lookup time (timeList old) _ i Hi) as Hk'.
    unfold alive in Hk'. rewrite Htp in Hk'. specialize (Hk' Ha).
    eapply NoDup_lookup; [|exact Hk|exact Hk'].
    apply NoDup_filter, NoDup_seq.
Qed.

(** Where a queued particle is found in the new lists. *)
Lemma newLists_queued time decay old queued j pv :
  queued !! j = Some pv ->
  let n := rank time (timeList old) (length (particleList old)) in
  particleList (newLists time decay old queued) !! (n + j) = Some pv /\
  timeList (newLists time decay old queued) !! (n + j) =
    Some (expiry (time (length (particleList old) + j)) decay).
Proof.
  intros Hq n. unfold newLists. simpl. split.
  - rewrite lookup_app_r by (rewrite length_keptParticles; unfold n, rank; lia).
    rewrite length_keptParticles. unfold n, rank.
    by replace (_ + j - _) with j by lia.
  - rewrite lookup_app_r by (rewrite length_keptTimes; unfold n, rank; lia).
    rewrite length_keptTimes. unfold n, rank.
    replace (_ + j - _) with j by lia.
    unfold birthTimes. by rewrite list_lookup_imap, Hq.
Qed.

Lemma length_newLists_particles time decay old queued :
  length (particleList (newLists time decay old queued)) =
  rank time (timeList old) (length (particleList old)) + length queued.
Proof.
  unfold newLists, rank. simpl. by rewrite length_app, length_keptParticles.
Qed.

(** A tick from a reachable state between two iterations succeeds; it
    posts the new lists computed from the snapshot posted before and
    from the queue, and leaves the queue empty. *)
Lemma tick_spec time s :
  System.reachable s -> System.pending s = false ->
  exists old s',
    snapshot s = Some old /\
    length (particleList old) = length (timeList old) /\
    tick time s = Some s' /\
    System.pending s' = false /\
    System.published s' =
      System.published s ++
      [newLists time (timeDecay (System.app s)) old
         (RingBuffer.contents (inputParticles (System.app s)))] /\
    RingBuffer.contents (inputParticles (System.app s')) = [] /\
    RingBuffer.empty (inputParticles (System.app s')) = true /\
    timeDecay (System.app s') = timeDecay (System.app s).
Proof.
  intros Hr Hp. pose proof (reachable_inv s Hr) as Hinv.
  destruct (writeNewValue_spec time s Hinv Hp)
    as (old & q' & Hlo & Hw & Hq' & Hc' & He' & Hcap').
  pose proof Hinv as [Hok Hold Hacq Hlast Hlock].
  pose proof (ok_buffer _ Hok) as Htb.
  exists old. eexists. split; [done|]. split.
  { eapply (ok_lengths _ Hok). rewrite <- Hlo. apply Hlast. }
  unfold tick. cbn [System.step]. rewrite Hp, Hw. cbn.
  unfold TripleBuffer.slot. cbn.
  rewrite list_lookup_insert_eq
    by (rewrite (TripleBuffer.wf_slots _ Htb); apply Htb).
  cbn. split; [reflexivity|]. by cbn.
Qed.

End TickFacts.

(* ===================================================================== *)
(** * Facts about the arithmetic *)
(* ===================================================================== *)

Section ArithFacts.

(** [c -= .1] on a [GLubyte]: the difference [c - 0.1] lies strictly
    between [c - 1] and [c], so truncation takes a positive [c] to
    [c - 1]; and [-0.1] truncates to 0. *)
Lemma sub_assign_tenth c :
  is_GLubyte c -> sub_assign c tenth = if 0 <? c then c - 1 else 0.
Proof.
  intros [H0 H1].
  assert (Ht : sub_assign_table = true) by (vm_compute; reflexivity).
  unfold sub_assign_table in Ht. rewrite forallb_forall in Ht.
  specialize (Ht (Z.to_nat c)). rewrite Z2Nat.id in Ht by done.
  apply Z.eqb_eq, Ht. apply in_seq. lia.
Qed.

Lemma sub_assign_range c : is_GLubyte c -> is_GLubyte (sub_assign c tenth).
Proof.
  intros Hc. rewrite sub_assign_tenth by done. unfold is_GLubyte in *.
  destruct (Z.ltb_spec 0 c); lia.
Qed.

Lemma updateColor_valid c : valid_color c -> valid_color (updateColor c).
Proof.
  intros (Hr & Hg & Hb & Ha). unfold updateColor.
  destruct (0 <? green c); [|destruct (0 <? red c)];
    refine (conj _ (conj _ (conj _ _))); simpl; try done;
    by apply sub_assign_range.
Qed.

End ArithFacts.

(* ===================================================================== *)
(** * The variants, seeding, and traces *)
(* ===================================================================== *)

Section Variants.
Local Open Scope nat_scope.

Lemma Animation_integrate opl pl :
  Animation.integrate opl pl = pl ++ (moveParticle <$> opl).
Proof.
  revert pl. induction opl as [|pv opl IH]; intros pl; simpl.
  - by rewrite app_nil_r.
  - by rewrite IH, <- app_assoc.
Qed.

Lemma InputP2_drain fuel (q : RingBuffer.t ParticleVertex) pl :
  RingBuffer.wf q -> RingBuffer.count q <= fuel ->
  exists q', InputP2.drain fuel q pl = Some (pl ++ RingBuffer.contents q, q') /\
             RingBuffer.wf q' /\ RingBuffer.empty q' = true.
Proof.
  revert q pl. induction fuel as [|fuel IH]; intros q pl Hq Hfuel; simpl.
  - assert (He : RingBuffer.empty q = true).
    { unfold RingBuffer.empty. apply Nat.eqb_eq. lia. }
    rewrite He. exists q.
    rewrite (proj1 (empty_contents q Hq) He). by rewrite app_nil_r.
  - destruct (RingBuffer.empty q) eqn:He.
    + exists q. rewrite (proj1 (empty_contents q Hq) He).
      by rewrite app_nil_r.
    + pose proof (read_contents q Hq) as Hr.
      destruct (RingBuffer.contents q) as [|pv l] eqn:Hc.
      { apply (empty_contents q Hq) in Hc. congruence. }
      destruct Hr as (q' & -> & Hq' & Hc' & Hcnt & _).
      destruct (IH q' (pl ++ [pv]) Hq') as (q'' & -> & ? & ?); [lia|].
      exists q''. by rewrite Hc', <- app_assoc.
Qed.

(** What [updateMesh] reads through [opl] after the clear. *)
Lemma slot_after_clear {T} (tb : TripleBuffer.t (list T)) w o old pl :
  TripleBuffer.slot tb o = Some old -> TripleBuffer.slot tb w = Some pl ->
  TripleBuffer.slot (TripleBuffer.setSlot w [] tb) o =
    Some (if decide (w = o) then [] else old) /\
  TripleBuffer.slot (TripleBuffer.setSlot w [] tb) w = Some [].
Proof.
  unfold TripleBuffer.slot, TripleBuffer.setSlot. simpl. intros Ho Hw.
  pose proof (lookup_lt_Some _ _ _ Hw) as Hlt.
  split; [|by rewrite list_lookup_insert_eq].
  destruct (decide (w = o)) as [->|Hne].
  - by rewrite list_lookup_insert_eq.
  - by rewrite list_lookup_insert_ne.
Qed.

Lemma slot_setSlot_eq {T} (tb : TripleBuffer.t T) w v x :
  TripleBuffer.slot tb w = Some x ->
  TripleBuffer.slot (TripleBuffer.setSlot w v tb) w = Some v.
Proof.
  unfold TripleBuffer.slot, TripleBuffer.setSlot. simpl. intros Hw.
  apply list_lookup_insert_eq. by eapply lookup_lt_Some.
Qed.

Lemma setSlot_setSlot {T} (tb : TripleBuffer.t T) w v v' :
  TripleBuffer.setSlot w v (TripleBuffer.setSlot w v' tb) =
  TripleBuffer.setSlot w v tb.
Proof.
  unfold TripleBuffer.setSlot. simpl. by rewrite list_insert_insert_eq.
Qed.

(** [updateMesh] of [StrangeAttractorsArray.cpp] on the store: the slot
    written receives the moved particles of the list read, which is
    empty when the slot written is the one [opl] designates. *)
Lemma Animation_updateMesh_spec w a old pl :
  TripleBuffer.slot (Animation.particleVertices a) (Animation.opl a)
    = Some old ->
  TripleBuffer.slot (Animation.particleVertices a) w = Some pl ->
  Animation.updateMesh w a =
  Some (Animation.mk (Animation.initParticleSize a)
          (TripleBuffer.setSlot w
             (moveParticle <$> (if decide (w = Animation.opl a) then []
                                else old))
             (Animation.particleVertices a))
          w (Animation.vertexBuffer a)).
Proof.
  intros Ho Hw. unfold Animation.updateMesh.
  destruct (slot_after_clear _ w _ old pl Ho Hw) as [-> ->]. simpl.
  by rewrite Animation_integrate, setSlot_setSlot.
Qed.

(** The same for [StrangeAttractorsInputP2.cpp], where the queued
    particles follow and the queue is left empty. *)
Lemma InputP2_updateMesh_spec w a old pl :
  RingBuffer.wf (InputP2.inputParticles a) ->
  TripleBuffer.slot (InputP2.particleVertices a) (InputP2.opl a)
    = Some old ->
  TripleBuffer.slot (InputP2.particleVertices a) w = Some pl ->
  exists q',
    InputP2.updateMesh w a =
    Some (InputP2.mk (InputP2.initParticleSize a)
            (TripleBuffer.setSlot w
               ((moveParticle <$> (if decide (w = InputP2.opl a) then []
                                   else old))
                ++ RingBuffer.contents (InputP2.inputParticles a))
               (InputP2.particleVertices a))
            q' w (InputP2.vertexBuffer a)) /\
    RingBuffer.wf q' /\ RingBuffer.empty q' = true.
Proof.
  intros Hq Ho Hw. unfold InputP2.updateMesh.
  destruct (slot_after_clear _ w _ old pl Ho Hw) as [-> ->]. simpl.
  destruct (InputP2_drain (RingBuffer.size (InputP2.inputParticles a))
              (InputP2.inputParticles a)
              (Animation.integrate
                 (if decide (w = InputP2.opl a) then [] else old) []) Hq)
    as (q' & Hd & Hq' & He); [done|].
  exists q'. rewrite Hd. simpl.
  by rewrite Animation_integrate, setSlot_setSlot.
Qed.

End Variants.

Section Traces.
Local Open Scope nat_scope.
Import StrangeAttractors Tick Invariant.

Lemma run_app tr1 tr2 s :
  System.run (tr1 ++ tr2) s = System.run tr1 s ≫= System.run tr2.
Proof.
  revert s. induction tr1 as [|a tr1 IH]; intros s; simpl; [done|].
  destruct (System.step a s); simpl; [apply IH|done].
Qed.

Lemma reachable_init rand time : System.reachable (System.init rand time).
Proof. by exists rand, time, []. Qed.

Lemma reachable_run tr s s' :
  System.reachable s -> System.run tr s = Some s' -> System.reachable s'.
Proof.
  intros (rand & time & tr0 & Hrun) Htr. exists rand, time, (tr0 ++ tr).
  by rewrite run_app, Hrun.
Qed.

Lemma reachable_step a s s' :
  System.reachable s -> System.step a s = Some s' -> System.reachable s'.
Proof.
  intros Hr Hs. apply (reachable_run [a] s s' Hr). simpl. by rewrite Hs.
Qed.

Lemma reachable_tick time s s' :
  System.reachable s -> tick time s = Some s' -> System.reachable s'.
Proof.
  intros Hr Ht. unfold tick in Ht.
  destruct (System.step (System.Write time) s) as [s1|] eqn:H1; [|done].
  eapply reachable_step; [|exact Ht]. by eapply reachable_step.
Qed.

(** Seeding never fails; it only writes to the queue. *)
Lemma run_seeds xs s :
  exists s',
    System.run (System.Seed <$> xs) s = Some s' /\
    inputParticles (System.app s') =
      RingBuffer.write_all xs (inputParticles (System.app s)) /\
    particleVertices (System.app s') = particleVertices (System.app s) /\
    timeDecay (System.app s') = timeDecay (System.app s) /\
    System.pending s' = System.pending s /\
    System.published s' = System.published s.
Proof.
  revert s. induction xs as [|x xs IH]; intros s.
  - by exists s.
  - rewrite fmap_cons. cbn [System.run System.step mbind option_bind].
    destruct (IH (System.mk (seedParticle x (System.app s))
                    (System.pending s) (System.published s)))
      as (s' & Hrun & Hq & Htb & Hd & Hp & Hpub).
    exists s'. by rewrite Hrun.
Qed.

(** The sample states are reachable when their trace can be run. *)
Lemma reachable_after tr :
  is_Some (System.run tr Demo.start) ->
  System.run tr Demo.start = Some (Demo.after tr) /\
  System.reachable (Demo.after tr).
Proof.
  unfold Demo.after. intros [s E]. rewrite E.
  split; [done|]. by exists Demo.rand, (Demo.at_time 0), tr.
Qed.

End Traces.

(* ===================================================================== *)
(** * The two threads of the array variant *)
(* ===================================================================== *)

Section ArrayFacts.
Local Open Scope nat_scope.
Import Invariant.

Lemma Animation_initParticles n rand i pl :
  Animation.initParticles n rand i pl = pl ++ (rand <$> seq i n).
Proof.
  revert i pl. induction n as [|n IH]; intros i pl; simpl.
  - by rewrite app_nil_r.
  - by rewrite IH, <- app_assoc.
Qed.

Lemma Animation_init_inv rand : Animation_inv (Animation.init rand).
Proof.
  split; [|reflexivity].
  cbn [Animation.init Animation.app Animation.create
       Animation.particleVertices].
  apply wf_postNewValue, wf_setSlot. split; simpl; lia.
Qed.

(** A frame exchanges roles only: the slots keep their content, the
    write slot and the latest slot stay the same. *)
Lemma Animation_frame_spec a :
  TripleBuffer.wf (Animation.particleVertices a) ->
  TripleBuffer.wf (Animation.particleVertices (Animation.frame a)) /\
  TripleBuffer.buffer (Animation.particleVertices (Animation.frame a)) =
    TripleBuffer.buffer (Animation.particleVertices a) /\
  TripleBuffer.writeSlot (Animation.particleVertices (Animation.frame a)) =
    TripleBuffer.writeSlot (Animation.particleVertices a) /\
  latestSlot (Animation.particleVertices (Animation.frame a)) =
    latestSlot (Animation.particleVertices a) /\
  Animation.opl (Animation.frame a) = Animation.opl a.
Proof.
  intros Htb. unfold Animation.frame, TripleBuffer.lockNewValue, latestSlot.
  destruct (TripleBuffer.fresh (Animation.particleVertices a)) eqn:Hf;
    [|by rewrite Hf].
  assert (Hwf : TripleBuffer.wf
            (TripleBuffer.mk
               (TripleBuffer.buffer (Animation.particleVertices a))
               (TripleBuffer.writeSlot (Animation.particleVertices a))
               (TripleBuffer.readSlot (Animation.particleVertices a))
               (TripleBuffer.postedSlot (Animation.particleVertices a))
               false true))
    by (destruct Htb; by split).
  by destruct (TripleBuffer.getLockedValue _).
Qed.

(** Between two iterations the thread's write succeeds: the slot it is
    given is not the one [opl] designates, and it receives the moved
    particles of that list. *)
Lemma Animation_write_spec s :
  Animation_inv s -> Animation.pending s = false ->
  let a := Animation.app s in
  let w := TripleBuffer.startNewValue (Animation.particleVertices a) in
  w <> Animation.opl a /\
  exists old,
    TripleBuffer.slot (Animation.particleVertices a) (Animation.opl a)
      = Some old /\
    Animation.writeNewValue a =
    Some (Animation.mk (Animation.initParticleSize a)
            (TripleBuffer.setSlot w (moveParticle <$> old)
               (Animation.particleVertices a))
            w (Animation.vertexBuffer a)).
Proof.
  intros [Htb Hopl] Hp a w. rewrite Hp in Hopl.
  assert (Hne : w <> Animation.opl a)
    by (fold a in Hopl; rewrite Hopl; apply latestSlot_ne_write, Htb).
  split; [exact Hne|].
  destruct (slot_is_Some (Animation.particleVertices a) (Animation.opl a) Htb)
    as [old Ho]; [fold a in Hopl; rewrite Hopl; by apply latestSlot_lt|].
  destruct (slot_is_Some (Animation.particleVertices a) w Htb)
    as [pl Hw]; [apply Htb|].
  exists old. split; [exact Ho|]. unfold Animation.writeNewValue. fold w.
  rewrite (Animation_updateMesh_spec w a old pl Ho Hw).
  by rewrite decide_False.
Qed.

Lemma Animation_step_inv x s s' :
  Animation_inv s -> Animation.step x s = Some s' -> Animation_inv s'.
Proof.
  intros Hinv Hstep. pose proof Hinv as [Htb Hopl].
  destruct x; simpl in Hstep.
  - injection Hstep as <-.
    destruct (Animation_frame_spec _ Htb) as (Hwf & _ & Hw & Hl & Ho).
    split; [exact Hwf|]. simpl. by rewrite Ho, Hw, Hl.
  - destruct (Animation.pending s) eqn:Hp; [done|].
    destruct (Animation_write_spec s Hinv Hp) as (_ & old & _ & Hw).
    rewrite Hw in Hstep. simpl in Hstep. injection Hstep as <-.
    split; [by apply wf_setSlot|done].
  - destruct (Animation.pending s) eqn:Hp; [|done].
    injection Hstep as <-. split; [by apply wf_postNewValue|].
    simpl. by rewrite Hopl.
Qed.

Lemma Animation_run_inv tr s s' :
  Animation_inv s -> Animation.run tr s = Some s' -> Animation_inv s'.
Proof.
  revert s. induction tr as [|x tr IH]; intros s Hinv Hrun; simpl in Hrun.
  - by injection Hrun as <-.
  - destruct (Animation.step x s) as [s1|] eqn:Hs; [|done].
    eapply IH; [|exact Hrun]. by eapply Animation_step_inv.
Qed.

Lemma iter_moveParticle n pv :
  Nat.iter n moveParticle pv =
  mkParticle (color pv) (Nat.iter n Lorenz.advance (position pv)).
Proof.
  induction n as [|n IH]; [by destruct pv|]. simpl. by rewrite IH.
Qed.

(** The list [opl] designates after a trace: every [Write] has moved
    every particle once. *)
Lemma Animation_run_old tr s s' old :
  Animation_inv s -> Animation.run tr s = Some s' ->
  TripleBuffer.slot (Animation.particleVertices (Animation.app s))
    (Animation.opl (Animation.app s)) = Some old ->
  TripleBuffer.slot (Animation.particleVertices (Animation.app s'))
    (Animation.opl (Animation.app s')) =
  Some (Nat.iter (writes tr) moveParticle <$> old).
Proof.
  revert s old. induction tr as [|x tr IH]; intros s old Hinv Hrun Ho.
  - simpl in Hrun. injection Hrun as <-. simpl. by rewrite list_fmap_id.
  - simpl in Hrun. destruct (Animation.step x s) as [s1|] eqn:Hs; [|done].
    simpl in Hrun. pose proof (Animation_step_inv _ _ _ Hinv Hs) as Hinv1.
    pose proof Hinv as [Htb Hopl].
    destruct x; simpl in Hs.
    + injection Hs as <-.
      destruct (Animation_frame_spec _ Htb) as (_ & Hb & _ & _ & Hopl').
      apply (IH _ old Hinv1 Hrun). unfold TripleBuffer.slot. simpl.
      by rewrite Hb, Hopl'.
    + destruct (Animation.pending s) eqn:Hp; [done|].
      destruct (Animation_write_spec s Hinv Hp) as (_ & old' & Ho' & Hw).
      rewrite Hw in Hs. simpl in Hs.
      rewrite Ho in Ho'. injection Ho' as <-.
      rewrite (IH _ (moveParticle <$> old) Hinv1 Hrun).
      * unfold writes. simpl. rewrite <- list_fmap_compose. f_equal.
        apply list_fmap_ext. intros _ pv _. simpl.
        apply Nat.iter_swap.
      * injection Hs as <-. simpl.
        destruct (slot_is_Some
                    (Animation.particleVertices (Animation.app s))
                    (TripleBuffer.startNewValue
                       (Animation.particleVertices (Animation.app s))) Htb)
          as [pl Hpl]; [apply Htb|].
        by eapply slot_setSlot_eq.
    + destruct (Animation.pending s) eqn:Hp; [|done].
      injection Hs as <-. by apply (IH _ old Hinv1 Hrun).
Qed.

End ArrayFacts.

(* ===================================================================== *)
(** * The queue: order and draining *)
(* ===================================================================== *)

Section QueueClaims.
Local Open Scope nat_scope.
Import StrangeAttractors Tick Invariant.

(** C7.  The ring buffer is strictly first-in first-out.  On a
    well-formed queue a write that finds room puts the item behind all
    queued ones and a read takes the oldest one; of any sequence of
    writes the items that find room are queued in the order written;
    hence writing any items [xs] that fit into an empty queue and
    reading as many times returns [xs] in the order written, for
    instance A, B, C.  Particles seeded between two ticks therefore
    enter the next snapshot behind those already queued, in the order
    in which they were seeded. *)
Theorem C7_ring_buffer_fifo :
  (forall (T : Type) (q : RingBuffer.t T) (x : T),
     RingBuffer.wf q -> RingBuffer.count q < RingBuffer.capacity q ->
     exists q', RingBuffer.write x q = (true, q') /\ RingBuffer.wf q' /\
                RingBuffer.contents q' = RingBuffer.contents q ++ [x]) /\
  (forall (T : Type) (q q' : RingBuffer.t T) (x : T),
     RingBuffer.wf q -> RingBuffer.read q = Some (x, q') ->
     RingBuffer.wf q' /\
     RingBuffer.contents q = x :: RingBuffer.contents q') /\
  (forall (T : Type) (q : RingBuffer.t T) (xs : list T),
     RingBuffer.wf q ->
     RingBuffer.wf (RingBuffer.write_all xs q) /\
     RingBuffer.contents (RingBuffer.write_all xs q) =
     RingBuffer.contents q ++
     take (RingBuffer.capacity q - RingBuffer.count q) xs) /\
  (forall (T : Type) (cap : nat) (xs : list T),
     length xs <= cap ->
     exists q',
       RingBuffer.read_n (length xs)
         (RingBuffer.write_all xs (RingBuffer.create cap)) = Some (xs, q') /\
       RingBuffer.empty q' = true) /\
  (forall (T : Type) (A B C : T),
     exists q',
       RingBuffer.read_n 3
         (RingBuffer.write_all [A; B; C] (RingBuffer.create 100)) =
       Some ([A; B; C], q')) /\
  (forall (s : System.t) (xs : list ParticleVertex) (time : Clock),
     System.reachable s -> System.pending s = false ->
     RingBuffer.count (inputParticles (System.app s)) + length xs <=
       RingBuffer.capacity (inputParticles (System.app s)) ->
     exists s1 s2 old new,
       System.run (System.Seed <$> xs) s = Some s1 /\
       snapshot s1 = Some old /\
       tick time s1 = Some s2 /\ snapshot s2 = Some new /\
       drop (rank time (timeList old) (length (particleList old)))
            (particleList new) =
       RingBuffer.contents (inputParticles (System.app s)) ++ xs).
Proof.
  split; [|split; [|split; [|split; [|split]]]].
  - intros T q x Hq Hroom.
    destruct (write_room q x Hq Hroom) as (q' & ? & ? & ? & _). by exists q'.
  - intros T q q' x Hq Hread. pose proof (read_contents q Hq) as Hr.
    destruct (RingBuffer.contents q) as [|y l]; [congruence|].
    destruct Hr as (q1 & Hr & Hq1 & Hc & _). rewrite Hread in Hr.
    injection Hr as -> ->. by rewrite Hc.
  - intros T q xs Hq. by apply write_all_contents.
  - intros T cap xs Hlen.
    destruct (write_all_room xs (RingBuffer.create cap) (wf_create cap))
      as (Hq & Hc & Hn); [simpl; lia|].
    destruct (read_n_contents (length xs) _ Hq) as (q' & Hr & Hq' & Hc');
      [rewrite Hn; simpl; lia|].
    rewrite contents_create in Hc. simpl in Hc.
    exists q'. rewrite Hc in Hr, Hc'. rewrite firstn_all in Hr.
    split; [done|]. apply (empty_contents q' Hq').
    by rewrite Hc', drop_all.
  - intros T A B C.
    destruct (write_all_room [A; B; C] (RingBuffer.create 100) (wf_create 100))
      as (Hq & Hc & Hn); [simpl; lia|].
    destruct (read_n_contents 3 _ Hq) as (q' & Hr & _);
      [rewrite Hn; simpl; lia|].
    exists q'. by rewrite Hc in Hr.
  - intros s xs time Hr Hp Hroom.
    destruct (run_seeds xs s) as (s1 & Hrun & Hq1 & Htb1 & Hd1 & Hp1 & Hpub1).
    pose proof (reachable_run _ _ _ Hr Hrun) as Hr1.
    destruct (tick_spec time s1 Hr1) as (old & s2 & Hold & Hlen & Ht & _ & Hpub & _);
      [congruence|].
    exists s1, s2, old. eexists. split; [done|]. split; [done|]. split; [done|].
    split; [unfold snapshot; rewrite Hpub; apply last_snoc|].
    rewrite Hq1.
    destruct (write_all_room xs (inputParticles (System.app s))) as (_ & -> & _);
      [apply (reachable_inv s Hr)|done|].
    unfold newLists. simpl. rewrite drop_app_length'; [done|].
    by rewrite length_keptParticles.
Qed.

Lemma C7_ring_buffer_fifo_witness :
  length [Demo.seedA; Demo.seedB] <= 100 /\
  exists q',
    RingBuffer.read_n 2
      (RingBuffer.write_all [Demo.seedA; Demo.seedB] (RingBuffer.create 100))
    = Some ([Demo.seedA; Demo.seedB], q') /\
    RingBuffer.empty q' = true.
Proof.
  assert (H : length [Demo.seedA; Demo.seedB] <= 100) by (simpl; lia).
  split; [exact H|].
  exact (proj1 (proj2 (proj2 (proj2 C7_ring_buffer_fifo))) ParticleVertex 100
           [Demo.seedA; Demo.seedB] H).
Defined.

(** C6.  A tick, after the surviving particles, appends every particle
    then in the queue to the new snapshot, paired with the expiry "clock
    reading plus [timeDecay]" ([timeDecay] is 10; the sum is taken in
    [double] and stored as [float]; the clock is read once per particle), and the queue is empty
    when the tick ends.  The loop terminates: the tick yields a state.
    In [StrangeAttractorsInputP2.cpp] the same loop appends the queued
    particles, without expiry, behind the moved particles of the list
    read through [opl] (an empty list when the slot written is the one
    [opl] designates, since it is cleared first), and empties the
    queue. *)
Theorem C6_queue_drained_every_tick :
  (forall (time : Clock) (s : System.t),
     System.reachable s -> System.pending s = false ->
     exists old new s',
       snapshot s = Some old /\ tick time s = Some s' /\
       snapshot s' = Some new /\
       let queued := RingBuffer.contents (inputParticles (System.app s)) in
       let n := rank time (timeList old) (length (particleList old)) in
       timeDecay (System.app s) = float_of_int 10 /\
       length (particleList new) = n + length queued /\
       length (timeList new) = n + length queued /\
       (forall j pv, queued !! j = Some pv ->
          particleList new !! (n + j) = Some pv /\
          timeList new !! (n + j) =
            Some (float_of_double
                    (dadd (time (length (particleList old) + j))
                          (double_of_float (timeDecay (System.app s)))))) /\
       RingBuffer.contents (inputParticles (System.app s')) = [] /\
       RingBuffer.size (inputParticles (System.app s')) = 0 /\
       RingBuffer.empty (inputParticles (System.app s')) = true) /\
  (forall (w : nat) (a : InputP2.t) (old pl : list ParticleVertex),
     RingBuffer.wf (InputP2.inputParticles a) ->
     TripleBuffer.slot (InputP2.particleVertices a) (InputP2.opl a)
       = Some old ->
     TripleBuffer.slot (InputP2.particleVertices a) w = Some pl ->
     exists a',
       InputP2.updateMesh w a = Some a' /\
       TripleBuffer.slot (InputP2.particleVertices a') w =
         Some ((moveParticle <$>
                  (if decide (w = InputP2.opl a) then [] else old))
               ++ RingBuffer.contents (InputP2.inputParticles a)) /\
       RingBuffer.contents (InputP2.inputParticles a') = [] /\
       RingBuffer.empty (InputP2.inputParticles a') = true).
Proof.
  split.
  - intros time s Hr Hp.
    destruct (tick_spec time s Hr Hp)
      as (old & s' & Hold & Hlen & Ht & Hp' & Hpub & Hc & He & Hd).
    exists old. eexists. exists s'. split; [done|]. split; [done|].
    split; [unfold snapshot; rewrite Hpub; apply last_snoc|].
    cbv zeta.
    split; [apply (ok_constants _ (inv_app _ (reachable_inv s Hr)))|].
    split; [apply length_newLists_particles|].
    split; [by rewrite <- length_newLists, length_newLists_particles|].
    split; [intros j pv Hj; by apply newLists_queued|].
    split; [done|]. split; [|done].
    pose proof (reachable_inv s' (reachable_tick _ _ _ Hr Ht)) as Hinv.
    unfold RingBuffer.size.
    rewrite <- (contents_length _ (ok_queue _ (inv_app _ Hinv))).
    by rewrite Hc.
  - intros w a old pl Hq Ho Hw.
    destruct (InputP2_updateMesh_spec w a old pl Hq Ho Hw)
      as (q' & Hu & Hq' & He).
    eexists. split; [exact Hu|]. simpl.
    split; [by eapply slot_setSlot_eq|].
    split; [by apply (empty_contents q' Hq')|done].
Qed.

Lemma C6_queue_drained_every_tick_witness :
  System.reachable Demo.seeded /\ System.pending Demo.seeded = false /\
  RingBuffer.contents (inputParticles (System.app Demo.seeded)) =
    [Demo.seedA; Demo.seedB] /\
  exists new s',
    tick (Demo.at_time 5) Demo.seeded = Some s' /\
    snapshot s' = Some new /\
    length (particleList new) = 102 /\
    particleList new !! 100 = Some Demo.seedA /\
    particleList new !! 101 = Some Demo.seedB /\
    timeList new !! 100 = Some Demo.fifteen /\
    timeList new !! 101 = Some Demo.fifteen /\
    RingBuffer.contents (inputParticles (System.app s')) = [] /\
    RingBuffer.empty (inputParticles (System.app s')) = true.
Proof.
  assert (Hr : System.reachable Demo.seeded)
    by (apply (reachable_after Demo.seeded_trace); vm_compute; eauto).
  assert (Hq : RingBuffer.contents (inputParticles (System.app Demo.seeded))
               = [Demo.seedA; Demo.seedB]) by (vm_compute; reflexivity).
  split; [exact Hr|]. split; [reflexivity|]. split; [exact Hq|].
  destruct (proj1 C6_queue_drained_every_tick (Demo.at_time 5) Demo.seeded
              Hr eq_refl)
    as (old & new & s' & Ho & Ht & Hn & Hd & Hlen & _ & Hin & Hc & _ & He).
  assert (Hold : old = default (mkLists [] []) (snapshot Demo.seeded))
    by (rewrite Ho; reflexivity).
  assert (Hk : rank (Demo.at_time 5) (timeList old)
                 (length (particleList old)) = 100)
    by (rewrite Hold; vm_compute; reflexivity).
  assert (Hl : length (particleList old) = 100)
    by (rewrite Hold; vm_compute; reflexivity).
  rewrite Hk in Hlen, Hin. rewrite Hl, Hd in Hin. rewrite Hq in Hlen, Hin.
  destruct (Hin 0 Demo.seedA eq_refl) as [HA HtA].
  destruct (Hin 1 Demo.seedB eq_refl) as [HB HtB].
  exists new, s'. split; [exact Ht|]. split; [exact Hn|].
  split; [exact Hlen|]. split; [exact HA|]. split; [exact HB|].
  split; [exact HtA|]. split; [exact HtB|]. split; [exact Hc | exact He].
Defined.

End QueueClaims.

(* ===================================================================== *)
(** * The tick: survival, order, motion and color *)
(* ===================================================================== *)

Section TickClaims.
Local Open Scope nat_scope.
Import StrangeAttractors Tick Invariant.

Lemma rank_S time otl i :
  rank time otl (S i) =
  rank time otl i + (if alive time 0 otl i then 1 else 0).
Proof.
  unfold rank. rewrite (keptIndices_split time 0 otl i (S i)) by lia.
  rewrite length_app. f_equal. replace (S i - i) with 1 by lia. simpl.
  rewrite filter_cons, filter_nil.
  destruct (decide (alive time 0 otl i)) as [Ha|Ha];
    by destruct (alive time 0 otl i).
Qed.

Lemma alive_lookup time otl i tp :
  otl !! i = Some tp -> alive time 0 otl i = dgt (double_of_float tp) (time i).
Proof. intros H. unfold alive. by rewrite H. Qed.

Lemma newLists_last time decay old queued pv :
  last (particleList (newLists time decay old (queued ++ [pv]))) = Some pv /\
  last (timeList (newLists time decay old (queued ++ [pv]))) =
    Some (expiry (time (length (particleList old) + length queued)) decay).
Proof.
  unfold newLists, birthTimes. simpl. rewrite imap_app. simpl.
  rewrite !app_assoc, !last_snoc. by rewrite Nat.add_0_r.
Qed.

(** C10.  In the new snapshot the surviving particles stand in the
    order they had in the previous one: an alive particle at old index
    [i] is found at place [rank i], and [rank] is strictly increasing on
    alive indices; every entry below the number [n] of survivors is
    such a survivor; the particles read from the queue follow from place
    [n] on, in queue order.  In [StrangeAttractorsInputP2.cpp], where
    every particle of the list read through [opl] survives (the list
    is empty when the slot written is the one [opl] designates, since
    it is cleared first), places are the old indices and the queued
    particles follow behind. *)
Theorem C10_survivors_in_order_then_injected :
  (forall (time : Clock) (s : System.t),
     System.reachable s -> System.pending s = false ->
     exists old new s',
       snapshot s = Some old /\ tick time s = Some s' /\
       snapshot s' = Some new /\
       let queued := RingBuffer.contents (inputParticles (System.app s)) in
       let place := rank time (timeList old) in
       let n := place (length (particleList old)) in
       (forall i i' pv pv' tp tp',
          i < i' ->
          particleList old !! i = Some pv -> timeList old !! i = Some tp ->
          dgt (double_of_float tp) (time i) = true ->
          particleList old !! i' = Some pv' -> timeList old !! i' = Some tp' ->
          dgt (double_of_float tp') (time i') = true ->
          place i < place i' /\ place i' < n /\
          particleList new !! place i = Some (updateParticle pv) /\
          particleList new !! place i' = Some (updateParticle pv')) /\
       (forall j pv',
          j < n -> particleList new !! j = Some pv' ->
          exists i pv tp,
            particleList old !! i = Some pv /\ timeList old !! i = Some tp /\
            dgt (double_of_float tp) (time i) = true /\
            j = place i /\ pv' = updateParticle pv) /\
       (forall j pv, queued !! j = Some pv ->
          particleList new !! (n + j) = Some pv) /\
       length (particleList new) = n + length queued) /\
  (forall (w : nat) (a : InputP2.t) (old pl0 : list ParticleVertex),
     RingBuffer.wf (InputP2.inputParticles a) ->
     TripleBuffer.slot (InputP2.particleVertices a) (InputP2.opl a)
       = Some old ->
     TripleBuffer.slot (InputP2.particleVertices a) w = Some pl0 ->
     let read := if decide (w = InputP2.opl a) then [] else old in
     let queued := RingBuffer.contents (InputP2.inputParticles a) in
     exists a' pl,
       InputP2.updateMesh w a = Some a' /\
       TripleBuffer.slot (InputP2.particleVertices a') w = Some pl /\
       (forall i pv, read !! i = Some pv ->
          pl !! i = Some (moveParticle pv)) /\
       (forall j pv, queued !! j = Some pv ->
          pl !! (length read + j) = Some pv) /\
       length pl = length read + length queued).
Proof.
  split.
  - intros time s Hr Hp.
    destruct (tick_spec time s Hr Hp)
      as (old & s' & Hold & Hlen & Ht & Hp' & Hpub & Hc & He & Hd).
    exists old. eexists. exists s'. split; [done|]. split; [done|].
    split; [unfold snapshot; rewrite Hpub; apply last_snoc|].
    cbv zeta. split; [|split; [|split]].
    + intros i i' pv pv' tp tp' Hii Hpv Htp Hgt Hpv' Htp' Hgt'.
      assert (Ha : alive time 0 (timeList old) i)
        by (rewrite (alive_lookup _ _ _ _ Htp), Hgt; done).
      assert (Ha' : alive time 0 (timeList old) i')
        by (rewrite (alive_lookup _ _ _ _ Htp'), Hgt'; done).
      split; [by apply rank_lt|].
      split; [apply rank_lt; [by eapply lookup_lt_Some|done]|].
      split; by eapply newLists_survivor.
    + intros j pv' Hj Hl. by eapply newLists_origin.
    + intros j pv Hj. by apply newLists_queued.
    + apply length_newLists_particles.
  - intros w a old pl0 Hq Ho Hw read queued.
    destruct (InputP2_updateMesh_spec w a old pl0 Hq Ho Hw)
      as (q' & Hu & _ & _).
    eexists. eexists. split; [exact Hu|]. simpl.
    split; [by eapply slot_setSlot_eq|]. fold read queued.
    split; [|split].
    + intros i pv Hi. rewrite lookup_app_l
        by (rewrite length_fmap; by eapply lookup_lt_Some).
      by rewrite list_lookup_fmap, Hi.
    + intros j pv Hj. rewrite lookup_app_r by (rewrite length_fmap; lia).
      rewrite length_fmap.
      by replace (length read + j - length read) with j by lia.
    + by rewrite length_app, length_fmap.
Qed.

Lemma C10_survivors_in_order_then_injected_witness :
  System.reachable Demo.ordered /\ System.pending Demo.ordered = false /\
  RingBuffer.contents (inputParticles (System.app Demo.ordered)) =
    [Demo.particle] /\
  exists old new s',
    snapshot Demo.ordered = Some old /\
    particleList old !! 100 = Some Demo.seedA /\
    particleList old !! 101 = Some Demo.seedB /\
    tick (Demo.at_time 12) Demo.ordered = Some s' /\
    snapshot s' = Some new /\
    particleList new !! 0 = Some (updateParticle Demo.seedA) /\
    particleList new !! 1 = Some (updateParticle Demo.seedB) /\
    particleList new !! 2 = Some Demo.particle /\
    length (particleList new) = 3.
Proof.
  assert (Hr : System.reachable Demo.ordered)
    by (apply (reachable_after Demo.ordered_trace); vm_compute; eauto).
  assert (Hq : RingBuffer.contents (inputParticles (System.app Demo.ordered))
               = [Demo.particle]) by (vm_compute; reflexivity).
  split; [exact Hr|]. split; [reflexivity|]. split; [exact Hq|].
  destruct (proj1 C10_survivors_in_order_then_injected (Demo.at_time 12)
              Demo.ordered Hr eq_refl)
    as (old & new & s' & Ho & Ht & Hn & Hsurv & _ & Hin & Hlen).
  assert (Hold : old = default (mkLists [] []) (snapshot Demo.ordered))
    by (rewrite Ho; reflexivity).
  assert (HA : particleList old !! 100 = Some Demo.seedA)
    by (rewrite Hold; vm_compute; reflexivity).
  assert (HB : particleList old !! 101 = Some Demo.seedB)
    by (rewrite Hold; vm_compute; reflexivity).
  assert (HtA : timeList old !! 100 = Some Demo.fifteen)
    by (rewrite Hold; vm_compute; reflexivity).
  assert (HtB : timeList old !! 101 = Some Demo.fifteen)
    by (rewrite Hold; vm_compute; reflexivity).
  assert (Hk0 : rank (Demo.at_time 12) (timeList old) 100 = 0)
    by (rewrite Hold; vm_compute; reflexivity).
  assert (Hk1 : rank (Demo.at_time 12) (timeList old) 101 = 1)
    by (rewrite Hold; vm_compute; reflexivity).
  assert (Hk : rank (Demo.at_time 12) (timeList old)
                 (length (particleList old)) = 2)
    by (rewrite Hold; vm_compute; reflexivity).
  assert (Hgt : dgt (double_of_float Demo.fifteen) (double_of_int 12) = true)
    by (vm_compute; reflexivity).
  destruct (Hsurv 100 101 Demo.seedA Demo.seedB Demo.fifteen Demo.fifteen
              ltac:(lia) HA HtA Hgt HB HtB Hgt) as (_ & _ & H0 & H1).
  rewrite Hk0 in H0. rewrite Hk1 in H1. rewrite Hk, Hq in Hlen, Hin.
  pose proof (Hin 0 Demo.particle eq_refl) as H2.
  exists old, new, s'. split; [exact Ho|]. split; [exact HA|].
  split; [exact HB|]. split; [exact Ht|]. split; [exact Hn|].
  split; [exact H0|]. split; [exact H1|]. split; [exact H2 | exact Hlen].
Defined.

(** C5.  A particle of the previous snapshot is carried into the next
    one exactly if its expiry is greater than the clock reading taken
    when the loop reaches it: alive particles take one place each (with
    their expiry unchanged), expired ones take none, and every place
    below the number [n] of alive particles is taken by an alive
    particle; what stands from place [n] on are exactly the particles
    read from the queue, so the snapshot has no place that an expired
    particle could take.  A
    particle seeded while the queue has room is the last entry of the
    snapshot posted by the next tick, with expiry "clock plus
    [timeDecay]"; at the tick after that it is carried exactly if that
    expiry is still greater than the clock. *)
Theorem C5_carried_iff_expiry_in_future :
  (forall (time : Clock) (s : System.t),
     System.reachable s -> System.pending s = false ->
     exists old new s',
       snapshot s = Some old /\ tick time s = Some s' /\
       snapshot s' = Some new /\
       let queued := RingBuffer.contents (inputParticles (System.app s)) in
       let place := rank time (timeList old) in
       let n := place (length (particleList old)) in
       (forall i pv tp,
          particleList old !! i = Some pv -> timeList old !! i = Some tp ->
          if dgt (double_of_float tp) (time i)
          then place (S i) = S (place i) /\ place i < n /\
               particleList new !! place i = Some (updateParticle pv) /\
               timeList new !! place i = Some tp
          else place (S i) = place i) /\
       (forall j pv',
          j < n -> particleList new !! j = Some pv' ->
          exists i pv tp,
            particleList old !! i = Some pv /\ timeList old !! i = Some tp /\
            dgt (double_of_float tp) (time i) = true /\
            j = place i /\ pv' = updateParticle pv) /\
       n = length (filter (fun i => alive time 0 (timeList old) i)
                          (seq 0 (length (particleList old)))) /\
       drop n (particleList new) = queued /\
       length (particleList new) = n + length queued /\
       length (timeList new) = n + length queued) /\
  (forall (time time2 : Clock) (s : System.t) (seeded : ParticleVertex),
     System.reachable s -> System.pending s = false ->
     RingBuffer.count (inputParticles (System.app s)) <
       RingBuffer.capacity (inputParticles (System.app s)) ->
     exists old s1 s2 s3 new1 new2,
       snapshot s = Some old /\
       System.step (System.Seed seeded) s = Some s1 /\
       tick time s1 = Some s2 /\ snapshot s2 = Some new1 /\
       tick time2 s2 = Some s3 /\ snapshot s3 = Some new2 /\
       let born :=
         float_of_double
           (dadd (time (length (particleList old) +
                        length (RingBuffer.contents
                                  (inputParticles (System.app s)))))
                 (double_of_float (timeDecay (System.app s)))) in
       let j := pred (length (particleList new1)) in
       let place := rank time2 (timeList new1) in
       last (particleList new1) = Some seeded /\
       last (timeList new1) = Some born /\
       if dgt (double_of_float born) (time2 j)
       then particleList new2 !! place j = Some (updateParticle seeded) /\
            timeList new2 !! place j = Some born
       else length (particleList new2) = place j).
Proof.
  split.
  - intros time s Hr Hp.
    destruct (tick_spec time s Hr Hp)
      as (old & s' & Hold & Hlen & Ht & Hp' & Hpub & Hc & He & Hd).
    exists old. eexists. exists s'. split; [done|]. split; [done|].
    split; [unfold snapshot; rewrite Hpub; apply last_snoc|].
    cbv zeta. split.
    + intros i pv tp Hpv Htp. rewrite rank_S, (alive_lookup _ _ _ _ Htp).
      destruct (dgt (double_of_float tp) (time i)) eqn:Hgt; [|lia].
      split; [lia|]. split.
      * apply rank_lt; [by eapply lookup_lt_Some|].
        by rewrite (alive_lookup _ _ _ _ Htp), Hgt.
      * by eapply newLists_survivor.
    + split; [intros j pv' Hj Hl; by eapply newLists_origin|].
      split; [reflexivity|].
      split; [|split; [apply length_newLists_particles|
                       by rewrite <- length_newLists,
                            length_newLists_particles]].
      unfold newLists. cbn [particleList].
      apply drop_app_length'. by rewrite length_keptParticles.
  - intros time time2 s seeded Hr Hp Hroom.
    pose proof (reachable_inv s Hr) as Hinv.
    destruct (write_room _ seeded (ok_queue _ (inv_app _ Hinv)) Hroom)
      as (q1 & Hw & Hq1 & Hc1 & _).
    set (s1 := System.mk (seedParticle seeded (System.app s))
                 (System.pending s) (System.published s)).
    assert (Hr1 : System.reachable s1)
      by exact (reachable_step (System.Seed seeded) s s1 Hr eq_refl).
    destruct (tick_spec time s1 Hr1 Hp)
      as (old & s2 & Hold & Hlen & Ht & Hp2 & Hpub & _ & He2 & Hd2).
    pose proof (reachable_tick _ _ _ Hr1 Ht) as Hr2.
    destruct (tick_spec time2 s2 Hr2 Hp2)
      as (new1 & s3 & Hn1 & Hlen1 & Ht3 & _ & Hpub3 & _ & _ & _).
    assert (Hnew1 : new1 =
              newLists time (timeDecay (System.app s)) old
                (RingBuffer.contents (inputParticles (System.app s)) ++ [seeded])).
    { unfold snapshot in Hn1. rewrite Hpub, last_snoc in Hn1.
      injection Hn1 as <-. subst s1. simpl. rewrite Hw. simpl. by rewrite Hc1. }
    exists old, s1, s2, s3, new1. eexists.
    split; [done|]. split; [done|]. split; [done|]. split; [done|].
    split; [done|].
    split; [unfold snapshot; rewrite Hpub3; apply last_snoc|].
    cbv zeta.
    set (queued := RingBuffer.contents (inputParticles (System.app s))) in *.
    set (born := float_of_double
                   (dadd (time (length (particleList old) + length queued))
                         (double_of_float (timeDecay (System.app s))))).
    assert (Hlast : last (particleList new1) = Some seeded /\
                    last (timeList new1) = Some born).
    { rewrite Hnew1. apply newLists_last. }
    split; [apply Hlast|]. split; [apply Hlast|].
    destruct Hlast as [Hl1 Hl2].
    rewrite last_lookup in Hl1. rewrite last_lookup in Hl2.
    rewrite <- Hlen1 in Hl2.
    destruct (dgt (double_of_float born)
                (time2 (pred (length (particleList new1))))) eqn:Hgt.
    + by eapply newLists_survivor.
    + rewrite length_newLists_particles.
      replace (RingBuffer.contents (inputParticles (System.app s2))) with
        (@nil ParticleVertex); [simpl|].
      * rewrite Nat.add_0_r.
        assert (Hpos : length (particleList new1) =
                       S (pred (length (particleList new1)))).
        { apply lookup_lt_Some in Hl1. lia. }
        rewrite Hpos at 1. rewrite rank_S, (alive_lookup _ _ _ _ Hl2), Hgt. lia.
      * symmetry. apply (empty_contents _ (ok_queue _ (inv_app _ (reachable_inv _ Hr2)))).
        exact He2.
Qed.

Lemma C5_carried_iff_expiry_in_future_witness :
  System.reachable Demo.mixed /\ System.pending Demo.mixed = false /\
  RingBuffer.contents (inputParticles (System.app Demo.mixed)) =
    [Demo.seedB] /\
  exists old new s',
    snapshot Demo.mixed = Some old /\
    length (particleList old) = 101 /\
    particleList old !! 0 = Some (updateParticle Demo.particle) /\
    timeList old !! 0 = Some Demo.ten /\
    dgt (double_of_float Demo.ten) (double_of_int 12) = false /\
    particleList old !! 100 = Some Demo.seedA /\
    timeList old !! 100 = Some Demo.fifteen /\
    dgt (double_of_float Demo.fifteen) (double_of_int 12) = true /\
    tick (Demo.at_time 12) Demo.mixed = Some s' /\
    snapshot s' = Some new /\
    particleList new !! 0 = Some (updateParticle Demo.seedA) /\
    timeList new !! 0 = Some Demo.fifteen /\
    drop 1 (particleList new) = [Demo.seedB] /\
    length (particleList new) = 2.
Proof.
  assert (Hr : System.reachable Demo.mixed)
    by (apply (reachable_after Demo.mixed_trace); vm_compute; eauto).
  assert (Hq : RingBuffer.contents (inputParticles (System.app Demo.mixed))
               = [Demo.seedB]) by (vm_compute; reflexivity).
  split; [exact Hr|]. split; [reflexivity|]. split; [exact Hq|].
  destruct (proj1 C5_carried_iff_expiry_in_future (Demo.at_time 12)
              Demo.mixed Hr eq_refl)
    as (old & new & s' & Ho & Ht & Hn & Hsurv & _ & _ & Hdrop & Hlen & _).
  assert (Hold : old = default (mkLists [] []) (snapshot Demo.mixed))
    by (rewrite Ho; reflexivity).
  assert (Hl : length (particleList old) = 101)
    by (rewrite Hold; vm_compute; reflexivity).
  assert (HP : particleList old !! 0 = Some (updateParticle Demo.particle))
    by (rewrite Hold; vm_compute; reflexivity).
  assert (HtP : timeList old !! 0 = Some Demo.ten)
    by (rewrite Hold; vm_compute; reflexivity).
  assert (Hle : dgt (double_of_float Demo.ten) (double_of_int 12) = false)
    by (vm_compute; reflexivity).
  assert (HA : particleList old !! 100 = Some Demo.seedA)
    by (rewrite Hold; vm_compute; reflexivity).
  assert (HtA : timeList old !! 100 = Some Demo.fifteen)
    by (rewrite Hold; vm_compute; reflexivity).
  assert (Hk0 : rank (Demo.at_time 12) (timeList old) 100 = 0)
    by (rewrite Hold; vm_compute; reflexivity).
  assert (Hk : rank (Demo.at_time 12) (timeList old)
                 (length (particleList old)) = 1)
    by (rewrite Hold; vm_compute; reflexivity).
  assert (Hgt : dgt (double_of_float Demo.fifteen) (double_of_int 12) = true)
    by (vm_compute; reflexivity).
  pose proof (Hsurv 100 Demo.seedA Demo.fifteen HA HtA) as H0.
  change (Demo.at_time 12 100) with (double_of_int 12) in H0.
  rewrite Hgt, Hk0 in H0. destruct H0 as (_ & _ & H0 & H0t).
  rewrite Hk in Hdrop, Hlen. rewrite Hq in Hdrop, Hlen.
  exists old, new, s'. split; [exact Ho|]. split; [exact Hl|].
  split; [exact HP|]. split; [exact HtP|]. split; [exact Hle|].
  split; [exact HA|]. split; [exact HtA|]. split; [exact Hgt|].
  split; [exact Ht|].
  split; [exact Hn|]. split; [exact H0|]. split; [exact H0t|].
  split; [exact Hdrop | exact Hlen].
Defined.

End TickClaims.

Section ParticleClaims.
Local Open Scope nat_scope.
Import StrangeAttractors Tick Invariant.

(** C1.  For every particle whose expiry is in the future, a tick puts
    into the next snapshot a particle whose position is the old position
    plus the time step 0.003 times the Lorenz derivative
    (σ(y−x), x(ρ−z)−y, xy−βz) with σ=10, ρ=28, β=2.667, every operation
    and constant in single precision.  [StrangeAttractorsArray.cpp]
    does the same for every particle of the list read through [opl],
    whenever the slot written is not the one [opl] designates, and in
    every state its two threads reach the slot the thread's loop writes
    is not that one.  From (1,1,1) the derivative is
    (0, 26, −1.667) up to the rounding of 2.667 to single precision
    (less than 10⁻⁶) and the new position is (1, 1.078, 0.995) up to
    0.0005. *)
Theorem C1_lorenz_euler_step :
  (forall (time : Clock) (s : System.t),
     System.reachable s -> System.pending s = false ->
     exists old new s',
       snapshot s = Some old /\ tick time s = Some s' /\
       snapshot s' = Some new /\
       forall i pv tp,
         particleList old !! i = Some pv -> timeList old !! i = Some tp ->
         dgt (double_of_float tp) (time i) = true ->
         exists pv',
           particleList new !! rank time (timeList old) i = Some pv' /\
           let x := p0 (position pv) in
           let y := p1 (position pv) in
           let z := p2 (position pv) in
           let sigma := float_of_int 10 in
           let rho := float_of_int 28 in
           let beta := float_of_double (double_literal 2667 3) in
           let dt := float_of_double (double_literal 3 3) in
           position pv' =
           mkPoint (x + sigma * (y - x) * dt)
                   (y + (x * (rho - z) - y) * dt)
                   (z + (x * y - beta * z) * dt)%float) /\
  (forall (w : nat) (a : Animation.t) (old pl : list ParticleVertex) i pv,
     TripleBuffer.slot (Animation.particleVertices a) (Animation.opl a)
       = Some old ->
     TripleBuffer.slot (Animation.particleVertices a) w = Some pl ->
     w <> Animation.opl a ->
     old !! i = Some pv ->
     exists a' new pv',
       Animation.updateMesh w a = Some a' /\
       TripleBuffer.slot (Animation.particleVertices a') w = Some new /\
       length new = length old /\
       new !! i = Some pv' /\
       color pv' = color pv /\
       let x := p0 (position pv) in
       let y := p1 (position pv) in
       let z := p2 (position pv) in
       let sigma := float_of_int 10 in
       let rho := float_of_int 28 in
       let beta := float_of_double (double_literal 2667 3) in
       let dt := float_of_double (double_literal 3 3) in
       position pv' =
       mkPoint (x + sigma * (y - x) * dt)
               (y + (x * (rho - z) - y) * dt)
               (z + (x * y - beta * z) * dt)%float) /\
  (forall (rand : nat -> ParticleVertex) (tr : list Animation.action)
          (s : Animation.state),
     Animation.run tr (Animation.init rand) = Some s ->
     Animation.pending s = false ->
     TripleBuffer.startNewValue
       (Animation.particleVertices (Animation.app s)) <>
     Animation.opl (Animation.app s) /\
     exists old new s',
       TripleBuffer.slot (Animation.particleVertices (Animation.app s))
         (Animation.opl (Animation.app s)) = Some old /\
       Animation.step Animation.Write s = Some s' /\
       TripleBuffer.slot (Animation.particleVertices (Animation.app s'))
         (Animation.opl (Animation.app s')) = Some new /\
       length new = length old /\
       forall i pv,
         old !! i = Some pv ->
         exists pv',
           new !! i = Some pv' /\
           color pv' = color pv /\
           let x := p0 (position pv) in
           let y := p1 (position pv) in
           let z := p2 (position pv) in
           let sigma := float_of_int 10 in
           let rho := float_of_int 28 in
           let beta := float_of_double (double_literal 2667 3) in
           let dt := float_of_double (double_literal 3 3) in
           position pv' =
           mkPoint (x + sigma * (y - x) * dt)
                   (y + (x * (rho - z) - y) * dt)
                   (z + (x * y - beta * z) * dt)%float) /\
  (let one := float_of_int 1 in
   let p := mkPoint one one one in
   v0 (Lorenz.dot p) = float_of_int 0 /\
   v1 (Lorenz.dot p) = float_of_int 26 /\
   near (1 # 1000000) (- (1667 # 1000)) (v2 (Lorenz.dot p)) /\
   forall pv, position pv = p ->
     p0 (position (updateParticle pv)) = one /\
     near (5 # 10000) (1078 # 1000) (p1 (position (updateParticle pv))) /\
     near (5 # 10000) (995 # 1000) (p2 (position (updateParticle pv)))).
Proof.
  split; [|split; [|split]].
  - intros time s Hr Hp.
    destruct (tick_spec time s Hr Hp)
      as (old & s' & Hold & Hlen & Ht & Hp' & Hpub & Hc & He & Hd).
    exists old. eexists. exists s'. split; [done|]. split; [done|].
    split; [unfold snapshot; rewrite Hpub; apply last_snoc|].
    intros i pv tp Hpv Htp Hgt. exists (updateParticle pv).
    split; [by eapply newLists_survivor|]. reflexivity.
  - intros w a old pl i pv Ho Hw Hne Hi.
    eexists. exists (moveParticle <$> old), (moveParticle pv).
    split; [by eapply Animation_updateMesh_spec|]. simpl.
    rewrite decide_False by done.
    split; [by eapply slot_setSlot_eq|].
    split; [by rewrite length_fmap|].
    split; [by rewrite list_lookup_fmap, Hi|]. done.
  - intros rand tr s Hrun Hp.
    pose proof (Animation_run_inv tr _ s (Animation_init_inv rand) Hrun)
      as Hinv.
    destruct (Animation_write_spec s Hinv Hp) as (Hne & old & Ho & Hw).
    split; [exact Hne|].
    destruct (slot_is_Some
                (Animation.particleVertices (Animation.app s))
                (TripleBuffer.startNewValue
                   (Animation.particleVertices (Animation.app s)))
                (proj1 Hinv)) as [pl Hpl]; [apply Hinv|].
    exists old, (moveParticle <$> old). eexists.
    split; [exact Ho|]. cbn [Animation.step]. rewrite Hp, Hw.
    split; [reflexivity|]. cbn [Animation.app Animation.particleVertices
                                Animation.opl].
    split; [by eapply slot_setSlot_eq|].
    split; [by rewrite length_fmap|].
    intros i pv Hi. exists (moveParticle pv).
    split; [by rewrite list_lookup_fmap, Hi|]. done.
  - cbv zeta. split; [reflexivity|]. split; [reflexivity|].
    split; [split; vm_compute; reflexivity|].
    intros pv Hpv. cbn [updateParticle position]. rewrite Hpv.
    split; [reflexivity|]. split; split; vm_compute; reflexivity.
Qed.

Lemma C1_lorenz_euler_step_witness :
  System.reachable Demo.start /\ System.pending Demo.start = false /\
  exists new s' pv',
    tick (Demo.at_time 5) Demo.start = Some s' /\ snapshot s' = Some new /\
    particleList new !! 0 = Some pv' /\
    near (5 # 10000) (1078 # 1000) (p1 (position pv')).
Proof.
  assert (Hr : System.reachable Demo.start)
    by (exists Demo.rand, (Demo.at_time 0), []; reflexivity).
  split; [exact Hr|]. split; [reflexivity|].
  destruct (proj1 C1_lorenz_euler_step (Demo.at_time 5) Demo.start Hr eq_refl)
    as (old & new & s' & Ho & Ht & Hn & Hstep).
  injection Ho as <-.
  destruct (Hstep 0 Demo.particle
              (float_of_double
                 (dadd (double_of_int 0) (double_of_float (float_of_int 10))))
              eq_refl eq_refl eq_refl) as (pv' & Hl & Hpos).
  exists new, s', pv'. split; [exact Ht|]. split; [exact Hn|].
  split; [exact Hl|]. rewrite Hpos. split; vm_compute; reflexivity.
Defined.

(** C4.  For every surviving particle with color channels in the range
    of [GLubyte], the tick lowers by one exactly the first channel that
    is still positive, looking at green, then red, then blue; with all
    three at 0 the color stays as it is.  No channel leaves the range
    0..255 (subtracting 0.1 and truncating takes 0 to 0), and alpha is
    not touched. *)
Theorem C4_color_fade :
  forall (time : Clock) (s : System.t),
    System.reachable s -> System.pending s = false ->
    exists old new s',
      snapshot s = Some old /\ tick time s = Some s' /\
      snapshot s' = Some new /\
      forall i pv tp,
        particleList old !! i = Some pv -> timeList old !! i = Some tp ->
        dgt (double_of_float tp) (time i) = true ->
        valid_color (color pv) ->
        exists pv',
          particleList new !! rank time (timeList old) i = Some pv' /\
          let c := color pv in
          let c' := color pv' in
          valid_color c' /\
          ((0 < green c)%Z ->
             c' = mkColor (red c) (green c - 1)%Z (blue c) (alpha c)) /\
          (green c = 0%Z -> (0 < red c)%Z ->
             c' = mkColor (red c - 1)%Z 0%Z (blue c) (alpha c)) /\
          (green c = 0%Z -> red c = 0%Z -> (0 < blue c)%Z ->
             c' = mkColor 0%Z 0%Z (blue c - 1)%Z (alpha c)) /\
          (green c = 0%Z -> red c = 0%Z -> blue c = 0%Z -> c' = c).
Proof.
  intros time s Hr Hp.
  destruct (tick_spec time s Hr Hp)
    as (old & s' & Hold & Hlen & Ht & Hp' & Hpub & Hc & He & Hd).
  exists old. eexists. exists s'. split; [done|]. split; [done|].
  split; [unfold snapshot; rewrite Hpub; apply last_snoc|].
  intros i pv tp Hpv Htp Hgt Hval. exists (updateParticle pv).
  split; [by eapply newLists_survivor|]. cbv zeta.
  split; [by apply updateColor_valid|].
  destruct Hval as (Hvr & Hvg & Hvb & Hva). simpl. unfold updateColor.
  destruct (color pv) as [cr cg cb ca]. simpl in *.
  unfold is_GLubyte in *.
  destruct (Z.ltb_spec 0 cg) as [Hg|Hg];
    [|destruct (Z.ltb_spec 0 cr) as [Hr'|Hr']];
    rewrite sub_assign_tenth by done;
    (split; [intros ?|split; [intros ? ?|split; [intros ? ? ?|intros ? ? ?]]]);
    try lia.
  - destruct (Z.ltb_spec 0 cg); [done|lia].
  - destruct (Z.ltb_spec 0 cr); [|lia]. by subst.
  - destruct (Z.ltb_spec 0 cb); [|lia]. by subst.
  - destruct (Z.ltb_spec 0 cb); [lia|]. by subst.
Qed.

Lemma C4_color_fade_witness :
  System.reachable Demo.start /\ System.pending Demo.start = false /\
  valid_color (color Demo.particle) /\
  exists new s' pv',
    tick (Demo.at_time 5) Demo.start = Some s' /\ snapshot s' = Some new /\
    particleList new !! 0 = Some pv' /\
    color pv' = mkColor 200%Z 99%Z 50%Z 255%Z.
Proof.
  assert (Hr : System.reachable Demo.start)
    by (exists Demo.rand, (Demo.at_time 0), []; reflexivity).
  assert (Hv : valid_color (color Demo.particle))
    by (unfold valid_color, is_GLubyte; simpl; lia).
  split; [exact Hr|]. split; [reflexivity|]. split; [exact Hv|].
  destruct (C4_color_fade (Demo.at_time 5) Demo.start Hr eq_refl)
    as (old & new & s' & Ho & Ht & Hn & Hstep).
  injection Ho as <-.
  destruct (Hstep 0 Demo.particle
              (float_of_double
                 (dadd (double_of_int 0) (double_of_float (float_of_int 10))))
              eq_refl eq_refl eq_refl Hv) as (pv' & Hl & _ & Hg & _).
  exists new, s', pv'. split; [exact Ht|]. split; [exact Hn|].
  split; [exact Hl|]. apply Hg. simpl. lia.
Defined.

End ParticleClaims.

(* ===================================================================== *)
(** * The hand-off to the rendering thread *)
(* ===================================================================== *)

Section ChannelClaims.
Local Open Scope nat_scope.
Import StrangeAttractors Tick Invariant.

Lemma hasNew_fresh s :
  hasNew s = TripleBuffer.fresh (particleVertices (System.app s)).
Proof.
  unfold hasNew, TripleBuffer.lockNewValue.
  by destruct (TripleBuffer.fresh _).
Qed.

(** In a consistent state the vertex buffer shows the locked value. *)
Lemma drawn_locked s : inv s -> drawn s = particleList <$> locked s.
Proof.
  intros Hinv. unfold drawn, display, locked.
  rewrite (ok_source _ (inv_app _ Hinv)).
  unfold lockedSource, TripleBuffer.getLockedValue, TripleBuffer.slot.
  destruct (TripleBuffer.acquired _); [|done].
  destruct (TripleBuffer.buffer _ !! TripleBuffer.readSlot _) as [this|] eqn:E;
    [|done].
  simpl. rewrite E. simpl. by rewrite firstn_all.
Qed.

(** An action of the background thread or of the input tool leaves what
    the rendering thread holds untouched; a [Post] makes a new value
    available. *)
Lemma step_view a s s' :
  inv s -> System.is_Frame a = false -> System.step a s = Some s' ->
  locked s' = locked s /\ drawn s' = drawn s /\
  vertexBuffer (System.app s') = vertexBuffer (System.app s) /\
  hasNew s' = hasNew s || System.is_Post a.
Proof.
  intros Hinv Hf Hstep.
  assert (Hl : locked s' = locked s /\
               vertexBuffer (System.app s') = vertexBuffer (System.app s) /\
               hasNew s' = hasNew s || System.is_Post a).
  { pose proof (ok_buffer _ (inv_app _ Hinv)) as Htb.
    rewrite !hasNew_fresh. unfold locked.
    destruct a as [pv| |time|]; simpl in Hstep; try done.
    - injection Hstep as <-. simpl. by rewrite orb_false_r.
    - destruct (System.pending s) eqn:Hp; [done|].
      destruct (writeNewValue_spec time s Hinv Hp) as (old & q' & _ & Hw & _).
      rewrite Hw in Hstep. simpl in Hstep. injection Hstep as <-. simpl.
      rewrite orb_false_r. split; [|done].
      unfold TripleBuffer.getLockedValue. simpl.
      destruct (TripleBuffer.acquired _); [|done].
      apply list_lookup_insert_ne, Htb.
    - destruct (System.pending s); [|done].
      destruct (TripleBuffer.slot _ _); [|done]. simpl in Hstep.
      injection Hstep as <-. simpl. by rewrite orb_true_r. }
  destruct Hl as (Hl & Hv & Hn). repeat split; try done.
  rewrite !drawn_locked, Hl; [done..|]. by eapply step_inv.
Qed.

Lemma run_view tr s s' :
  inv s -> forallb (fun a => negb (System.is_Frame a)) tr = true ->
  System.run tr s = Some s' ->
  locked s' = locked s /\ drawn s' = drawn s /\
  vertexBuffer (System.app s') = vertexBuffer (System.app s) /\
  hasNew s' = hasNew s || existsb System.is_Post tr.
Proof.
  revert s. induction tr as [|a tr IH]; intros s Hinv Hnf Hrun; simpl in *.
  - injection Hrun as <-. by rewrite orb_false_r.
  - apply andb_true_iff in Hnf as [Ha Hnf]. apply negb_true_iff in Ha.
    destruct (System.step a s) as [s1|] eqn:Hs; [|done]. simpl in Hrun.
    destruct (step_view a s s1 Hinv Ha Hs) as (E1 & E2 & E3 & E4).
    destruct (IH s1 (step_inv _ _ _ Hinv Hs) Hnf Hrun) as (F1 & F2 & F3 & F4).
    rewrite F1, F2, F3, F4, E1, E2, E3, E4. by rewrite orb_assoc.
Qed.

(** A frame that finds a new value locks the latest posted snapshot and
    makes it the source of the vertex buffer; a frame that finds none
    changes nothing. *)
Lemma frame_view s :
  inv s ->
  let s' := System.mk (frame (System.app s)) (System.pending s)
              (System.published s) in
  hasNew s' = false /\
  if hasNew s
  then exists latest,
         snapshot s = Some latest /\ locked s' = Some latest /\
         drawn s' = Some (particleList latest) /\
         vertexBuffer (System.app s') =
           Some (length (particleList latest),
                 TripleBuffer.postedSlot (particleVertices (System.app s)))
  else s' = s.
Proof.
  intros Hinv s'. pose proof Hinv as [Hok Hold Hacq Hlast Hlock].
  pose proof (ok_buffer _ Hok) as Htb.
  subst s'. rewrite !hasNew_fresh.
  unfold locked, drawn, display, snapshot, frame, TripleBuffer.lockNewValue.
  destruct (TripleBuffer.fresh (particleVertices (System.app s))) eqn:Hf.
  - unfold latestSlot in Hlast. rewrite Hf in Hlast.
    destruct (slot_is_Some _ (TripleBuffer.postedSlot
                (particleVertices (System.app s))) Htb) as [this Hthis];
      [apply Htb|].
    rewrite Hthis in Hlast. unfold TripleBuffer.slot in Hthis.
    unfold TripleBuffer.getLockedValue, TripleBuffer.slot. simpl.
    rewrite Hthis. simpl. rewrite Hthis. simpl. rewrite firstn_all.
    split; [done|]. by exists this.
  - split; [done|]. by destruct s.
Qed.



End ChannelClaims.

Section SnapshotClaims.
Local Open Scope nat_scope.
Import StrangeAttractors Tick Invariant.

Lemma display_source a :
  vertexBuffer a = lockedSource (particleVertices a) ->
  display a = particleList <$> TripleBuffer.getLockedValue (particleVertices a).
Proof.
  intros Hsrc. unfold display. rewrite Hsrc.
  unfold lockedSource, TripleBuffer.getLockedValue, TripleBuffer.slot.
  destruct (TripleBuffer.acquired _); [|done].
  destruct (TripleBuffer.buffer _ !! TripleBuffer.readSlot _) as [this|] eqn:E;
    [|done].
  simpl. rewrite E. simpl. by rewrite firstn_all.
Qed.

(** Whatever the write slot holds, the rendering thread sees the same:
    in what it holds, in what it draws, and in what its next frame
    locks. *)
Lemma scribble_view v s :
  inv s ->
  locked (System.scribble v s) = locked s /\
  drawn (System.scribble v s) = drawn s /\
  TripleBuffer.getLockedValue
    (particleVertices (frame (System.app (System.scribble v s)))) =
  TripleBuffer.getLockedValue (particleVertices (frame (System.app s))) /\
  display (frame (System.app (System.scribble v s))) =
  display (frame (System.app s)).
Proof.
  intros Hinv. pose proof Hinv as [Hok Hold Hacq Hlast Hlock].
  pose proof Hok as [Htb Hq Heq Hlens Hsrc _].
  pose proof (TripleBuffer.wf_write_read _ Htb) as Hwr.
  pose proof (TripleBuffer.wf_write_posted _ Htb) as Hwp.
  assert (Hl : locked (System.scribble v s) = locked s).
  { unfold locked, System.scribble, TripleBuffer.getLockedValue. simpl.
    destruct (TripleBuffer.acquired _); [|done].
    by apply list_lookup_insert_ne. }
  assert (Hd : drawn (System.scribble v s) = drawn s).
  { unfold drawn. rewrite (display_source _ Hsrc).
    rewrite display_source; [exact (f_equal (fmap particleList) Hl)|].
    simpl. rewrite Hsrc. unfold lockedSource, TripleBuffer.slot. simpl.
    destruct (TripleBuffer.acquired _); [|done].
    by rewrite list_lookup_insert_ne. }
  split; [done|]. split; [done|].
  unfold frame, TripleBuffer.lockNewValue. simpl.
  destruct (TripleBuffer.fresh (particleVertices (System.app s))) eqn:Hf;
    [|split; [exact Hl | exact Hd]].
  assert (Hpo : <[TripleBuffer.writeSlot (particleVertices (System.app s)) := v]>
                  (TripleBuffer.buffer (particleVertices (System.app s)))
                !! TripleBuffer.postedSlot (particleVertices (System.app s)) =
                TripleBuffer.buffer (particleVertices (System.app s))
                !! TripleBuffer.postedSlot (particleVertices (System.app s)))
    by by apply list_lookup_insert_ne.
  unfold TripleBuffer.getLockedValue. simpl. rewrite Hpo.
  destruct (TripleBuffer.buffer (particleVertices (System.app s))
            !! TripleBuffer.postedSlot (particleVertices (System.app s)))
    as [this|] eqn:Hthis; simpl.
  - rewrite Hpo. split; [done|]. unfold display, TripleBuffer.slot. simpl.
    by rewrite Hpo, Hthis.
  - by rewrite Hpo.
Qed.

(** C2.  In every reachable state the value the rendering thread holds
    is one of the values that were posted, hence written to the end; it
    is what the vertex buffer draws; no action of the background thread
    or of the input tool, and no sequence of them, changes it; and it
    does not depend on what the write slot holds at the moment, nor
    does the value the next frame would lock: a value under
    construction is never seen. *)
Theorem C2_locked_snapshot_never_mutated :
  forall s : System.t,
    System.reachable s ->
    (forall this, locked s = Some this -> this ∈ System.published s) /\
    drawn s = particleList <$> locked s /\
    (forall (tr : list System.action) (s' : System.t),
       forallb (fun a => negb (System.is_Frame a)) tr = true ->
       System.run tr s = Some s' ->
       locked s' = locked s /\ drawn s' = drawn s) /\
    (forall v : ParticleTimeList,
       locked (System.scribble v s) = locked s /\
       drawn (System.scribble v s) = drawn s /\
       TripleBuffer.getLockedValue
         (particleVertices (frame (System.app (System.scribble v s)))) =
       TripleBuffer.getLockedValue (particleVertices (frame (System.app s))) /\
       display (frame (System.app (System.scribble v s))) =
       display (frame (System.app s))).
Proof.
  intros s Hr. pose proof (reachable_inv s Hr) as Hinv.
  split; [apply Hinv|]. split; [by apply drawn_locked|]. split.
  - intros tr s' Hnf Hrun.
    destruct (run_view tr s s' Hinv Hnf Hrun) as (? & ? & _). by split.
  - intros v. by apply scribble_view.
Qed.

Lemma C2_locked_snapshot_never_mutated_witness :
  System.reachable Demo.framed /\
  locked Demo.framed = Some (initialLists Demo.rand (Demo.at_time 0)) /\
  System.run Demo.rendered_tail Demo.framed = Some Demo.rendered /\
  particleList <$> snapshot Demo.rendered =
    Some [updateParticle Demo.seedA] /\
  locked Demo.rendered = Some (initialLists Demo.rand (Demo.at_time 0)) /\
  drawn Demo.rendered =
    Some (particleList (initialLists Demo.rand (Demo.at_time 0))) /\
  locked (System.scribble (mkLists [] []) Demo.framed) =
    Some (initialLists Demo.rand (Demo.at_time 0)).
Proof.
  assert (Hr : System.reachable Demo.framed)
    by (apply (reachable_after Demo.framed_trace); vm_compute; eauto).
  assert (Hl : locked Demo.framed =
               Some (initialLists Demo.rand (Demo.at_time 0)))
    by (vm_compute; reflexivity).
  assert (Hrun : System.run Demo.rendered_tail Demo.framed
                 = Some Demo.rendered) by (vm_compute; reflexivity).
  assert (Hs : particleList <$> snapshot Demo.rendered =
               Some [updateParticle Demo.seedA])
    by (vm_compute; reflexivity).
  destruct (C2_locked_snapshot_never_mutated Demo.framed Hr)
    as (_ & Hd & Hsame & Hscr).
  destruct (Hsame Demo.rendered_tail Demo.rendered eq_refl Hrun)
    as [Hl' Hd'].
  destruct (Hscr (mkLists [] [])) as (Hl'' & _).
  split; [exact Hr|]. split; [exact Hl|]. split; [exact Hrun|].
  split; [exact Hs|]. split; [by rewrite Hl', Hl|].
  split; [by rewrite Hd', Hd, Hl|]. by rewrite Hl'', Hl.
Defined.

Lemma tick_app time s s' :
  tick time s = Some s' -> threadIteration time (System.app s) = Some (System.app s').
Proof.
  unfold tick, threadIteration. simpl.
  destruct (System.pending s); [done|].
  destruct (writeNewValue time (System.app s)) as [a'|]; [|done]. simpl.
  destruct (TripleBuffer.slot _ _); [|done]. simpl. by intros [= <-].
Qed.

(** C3 as stated fails: snapshots carry no generation counter, and none
    can be read off them.  Start from the constructor's state with all
    100 particles expiring at time 10 and nothing seeded: a tick at time
    1000 posts the empty snapshot, and so does the next tick.  Two
    snapshots posted in a row are equal, so no function of the snapshot
    grows by one from each posted snapshot to the next. *)
Lemma C3_generation_counter_counterexample :
  (exists s1 s2,
     tick (Demo.at_time 1000) Demo.start = Some s1 /\
     tick (Demo.at_time 1000) s1 = Some s2 /\
     snapshot s1 = Some (mkLists [] []) /\
     snapshot s2 = Some (mkLists [] [])) /\
  ~ exists generation : ParticleTimeList -> Z,
      forall (time : Clock) (s s' : System.t) (old new : ParticleTimeList),
        System.reachable s -> System.pending s = false ->
        snapshot s = Some old -> tick time s = Some s' ->
        snapshot s' = Some new ->
        generation new = (generation old + 1)%Z.
Proof.
  assert (Hr : System.reachable Demo.start) by apply reachable_init.
  destruct (tick_spec (Demo.at_time 1000) Demo.start Hr eq_refl)
    as (old0 & s1 & Ho0 & _ & H1 & Hp1 & Hpub1 & Hc1 & _).
  pose proof (reachable_tick _ _ _ Hr H1) as Hr1.
  destruct (tick_spec (Demo.at_time 1000) s1 Hr1 Hp1)
    as (old1 & s2 & Ho1 & _ & H2 & _ & Hpub2 & _).
  assert (E1 : snapshot s1 = Some (mkLists [] [])).
  { unfold snapshot. rewrite Hpub1, last_snoc.
    injection Ho0 as <-. by vm_compute. }
  assert (E2 : snapshot s2 = Some (mkLists [] [])).
  { unfold snapshot. rewrite Hpub2, last_snoc, Hc1.
    rewrite E1 in Ho1. injection Ho1 as <-. done. }
  split.
  { exists s1, s2. split; [exact H1|]. split; [exact H2|].
    split; [exact E1 | exact E2]. }
  intros [generation Hgen].
  specialize (Hgen (Demo.at_time 1000) s1 s2 _ _ Hr1 Hp1 E1 H2 E2). lia.
Qed.

(** A post hands the value just written to the rendering thread: it
    is the last of the posted values, a new value is announced, and the
    next frame locks and draws it. *)
Lemma post_view s s' :
  inv s -> System.step System.Post s = Some s' ->
  exists new,
    System.published s' = System.published s ++ [new] /\
    snapshot s' = Some new /\
    System.pending s' = false /\
    System.app s' = postNewValue (System.app s) /\
    hasNew s' = true /\
    TripleBuffer.getLockedValue
      (particleVertices (frame (System.app s'))) = Some new /\
    display (frame (System.app s')) = Some (particleList new).
Proof.
  intros Hinv Hstep.
  pose proof (step_inv _ _ _ Hinv Hstep) as Hinv'.
  cbn [System.step] in Hstep.
  destruct (System.pending s); [|done].
  destruct (TripleBuffer.slot _ _) as [this|]; [|done].
  cbn in Hstep. injection Hstep as <-. exists this.
  assert (Hn : hasNew
            (System.mk (postNewValue (System.app s)) false
               (System.published s ++ [this])) = true)
    by (by rewrite hasNew_fresh).
  destruct (frame_view _ Hinv') as [_ Hfr]. rewrite Hn in Hfr.
  destruct Hfr as (latest & Hs & Hl & Hd & _).
  unfold snapshot in Hs. cbn [System.published] in Hs.
  rewrite last_snoc in Hs. injection Hs as <-.
  split; [done|]. split; [apply last_snoc|]. split; [done|].
  split; [done|]. split; [exact Hn|]. split; [exact Hl | exact Hd].
Qed.

(** One iteration of the thread's loop, seen from both threads. *)
Lemma tick_view time s :
  System.reachable s -> System.pending s = false ->
  exists new s',
    tick time s = Some s' /\
    threadIteration time (System.app s) = Some (System.app s') /\
    System.pending s' = false /\
    System.published s' = System.published s ++ [new] /\
    snapshot s' = Some new /\
    hasNew s' = true /\
    TripleBuffer.getLockedValue
      (particleVertices (frame (System.app s'))) = Some new /\
    display (frame (System.app s')) = Some (particleList new).
Proof.
  intros Hr Hp.
  destruct (tick_spec time s Hr Hp) as (old & s' & _ & _ & Ht & _).
  pose proof Ht as Ht'. unfold tick in Ht'.
  destruct (System.step (System.Write time) s) as [s1|] eqn:Hw; [|done].
  cbn in Ht'.
  pose proof (step_inv _ _ _ (reachable_inv s Hr) Hw) as Hinv1.
  destruct (post_view s1 s' Hinv1 Ht')
    as (new & Hpub & Hs & Hp' & _ & Hn & Hl & Hd).
  assert (Hpub1 : System.published s1 = System.published s).
  { cbn [System.step] in Hw. rewrite Hp in Hw.
    destruct (writeNewValue time (System.app s)); [|done].
    cbn in Hw. by injection Hw as <-. }
  exists new, s'. split; [exact Ht|]. split; [by apply tick_app|].
  split; [exact Hp'|]. split; [by rewrite Hpub, Hpub1|].
  split; [exact Hs|]. split; [exact Hn|]. split; [exact Hl | exact Hd].
Qed.

(** C3, amended.  A posted snapshot holds the particle list and the
    expiry list and nothing else.  What grows by one with each publish
    is the sequence of snapshots handed to the rendering thread: every
    iteration of the thread's loop succeeds and posts exactly one
    snapshot, which is announced as new and is the one the next frame
    locks and draws; [n] iterations post [n] snapshots, the last of
    which the next frame locks; no other action posts any, and no
    action of the input tool or write of the thread announces a new
    value. *)
Theorem C3_each_publish_appends_one_snapshot :
  (forall (time : Clock) (s : System.t),
     System.reachable s -> System.pending s = false ->
     exists new s',
       tick time s = Some s' /\
       threadIteration time (System.app s) = Some (System.app s') /\
       System.pending s' = false /\
       System.published s' = System.published s ++ [new] /\
       snapshot s' = Some new /\
       hasNew s' = true /\
       TripleBuffer.getLockedValue
         (particleVertices (frame (System.app s'))) = Some new /\
       display (frame (System.app s')) = Some (particleList new)) /\
  (forall (n : nat) (clocks : nat -> Clock) (s : System.t),
     System.reachable s -> System.pending s = false ->
     exists s' news,
       ticks n clocks s = Some s' /\
       strangeAttractorsThreadMethod n clocks (System.app s) =
         Some (System.app s') /\
       System.pending s' = false /\
       System.published s' = System.published s ++ news /\
       length news = n /\
       (0 < n ->
        hasNew s' = true /\
        TripleBuffer.getLockedValue
          (particleVertices (frame (System.app s'))) = last news /\
        display (frame (System.app s')) = particleList <$> last news)) /\
  (forall (a : System.action) (s s' : System.t),
     System.reachable s -> System.step a s = Some s' ->
     if System.is_Post a
     then exists new,
            System.published s' = System.published s ++ [new] /\
            snapshot s' = Some new /\
            hasNew s' = true /\
            TripleBuffer.getLockedValue
              (particleVertices (frame (System.app s'))) = Some new /\
            display (frame (System.app s')) = Some (particleList new)
     else System.published s' = System.published s /\
          (System.is_Frame a = false -> hasNew s' = hasNew s)).
Proof.
  split; [exact tick_view|split].
  - intros n clocks. induction n as [|n IH]; intros s Hr Hp.
    + exists s, []. simpl. rewrite app_nil_r. repeat split; try done; lia.
    + destruct (IH s Hr Hp) as (s1 & news & Ht & Hm & Hp1 & Hpub & Hlen & _).
      assert (Hr1 : System.reachable s1).
      { clear -Hr Ht. revert s1 Ht. induction n as [|n IHn]; intros s1 Ht.
        - simpl in Ht. by injection Ht as <-.
        - simpl in Ht. destruct (ticks n clocks s) as [s0|] eqn:E; [|done].
          simpl in Ht. eapply reachable_tick; [|exact Ht]. by apply IHn. }
      destruct (tick_view (clocks n) s1 Hr1 Hp1)
        as (new & s2 & Ht2 & Hm2 & Hp2 & Hpub2 & _ & Hn2 & Hl2 & Hd2).
      exists s2, (news ++ [new]). simpl. rewrite Ht, Hm. simpl.
      split; [exact Ht2|]. split; [exact Hm2|]. split; [exact Hp2|].
      split; [by rewrite Hpub2, Hpub, <- app_assoc|].
      split; [rewrite length_app; simpl; lia|].
      intros _. rewrite last_snoc. split; [exact Hn2|].
      split; [exact Hl2 | exact Hd2].
  - intros a s s' Hr Hstep.
    assert (Hnew : System.is_Frame a = false ->
                   hasNew s' = hasNew s || System.is_Post a).
    { intros Hf.
      by destruct (step_view a s s' (reachable_inv s Hr) Hf Hstep)
        as (_ & _ & _ & ?). }
    destruct a as [pv| |time|].
    + split; [simpl in *; by injection Hstep as <-|].
      intros Hf. rewrite (Hnew Hf). apply orb_false_r.
    + split; [simpl in *; by injection Hstep as <-|]. by intros.
    + split; [|intros Hf; rewrite (Hnew Hf); apply orb_false_r].
      simpl in *. destruct (System.pending s); [done|].
      destruct (writeNewValue time (System.app s)); [|done].
      simpl in Hstep. by injection Hstep as <-.
    + destruct (post_view s s' (reachable_inv s Hr) Hstep)
        as (new & Hpub & Hs & _ & _ & Hn & Hl & Hd).
      exists new. simpl. split; [exact Hpub|]. split; [exact Hs|].
      split; [exact Hn|]. split; [exact Hl | exact Hd].
Qed.

Lemma C3_each_publish_appends_one_snapshot_witness :
  System.reachable Demo.start /\ System.pending Demo.start = false /\
  exists s' new,
    ticks 2 (fun _ => Demo.at_time 5) Demo.start = Some s' /\
    length (System.published s') = 3 /\
    snapshot s' = Some new /\
    hasNew s' = true /\
    TripleBuffer.getLockedValue
      (particleVertices (frame (System.app s'))) = Some new.
Proof.
  assert (Hr : System.reachable Demo.start)
    by (exists Demo.rand, (Demo.at_time 0), []; reflexivity).
  split; [exact Hr|]. split; [reflexivity|].
  destruct (proj1 (proj2 C3_each_publish_appends_one_snapshot) 2
              (fun _ => Demo.at_time 5) Demo.start Hr eq_refl)
    as (s' & news & Ht & _ & _ & Hpub & Hlen & Hnew).
  destruct (Hnew ltac:(lia)) as (Hn & Hl & _).
  destruct news as [|x [|y [|z news]]]; try discriminate Hlen.
  exists s', y. split; [exact Ht|].
  split; [rewrite Hpub, length_app; reflexivity|].
  split; [|split; [exact Hn | exact Hl]].
  unfold snapshot. rewrite Hpub. change [x; y] with ([x] ++ [y]).
  rewrite app_assoc. apply last_snoc.
Defined.

End SnapshotClaims.

(* ===================================================================== *)
(** * Further properties: colors over time *)
(* ===================================================================== *)

Section FadeFacts.

Lemma faded_valid n c : valid_color c -> valid_color (faded n c).
Proof.
  intros (Hr & Hg & Hb & Ha). unfold faded, valid_color, is_GLubyte in *.
  simpl. lia.
Qed.


Lemma updateColor_faded n c :
  valid_color c -> updateColor (faded n c) = faded (S n) c.
Proof.
  intros Hc. pose proof (faded_valid n c Hc) as (Hr & Hg & Hb & Ha).
  destruct Hc as (Hr0 & Hg0 & Hb0 & Ha0).
  unfold updateColor. rewrite !sub_assign_tenth by done.
  unfold faded, is_GLubyte in *. simpl in *. rewrite Nat2Z.inj_succ.
  destruct (Z.ltb_spec 0 (Z.max 0 (green c - Z.of_nat n)));
    [|destruct (Z.ltb_spec 0 (Z.max 0 (red c -
                  Z.max 0 (Z.of_nat n - green c))))];
    [| |destruct (Z.ltb_spec 0 (Z.max 0 (blue c -
                  Z.max 0 (Z.max 0 (Z.of_nat n - green c) - red c))))];
    f_equal; lia.
Qed.

Lemma iter_updateColor n c :
  valid_color c -> Nat.iter n updateColor c = faded n c.
Proof.
  intros Hc. induction n as [|n IH].
  - destruct Hc as (Hr & Hg & Hb & Ha). unfold faded, is_GLubyte in *.
    destruct c as [r g b a]. simpl in *. f_equal; lia.
  - simpl. rewrite IH. by apply updateColor_faded.
Qed.

Lemma iter_updateParticle n pv :
  Nat.iter n updateParticle pv =
  mkParticle (Nat.iter n updateColor (color pv))
             (Nat.iter n Lorenz.advance (position pv)).
Proof.
  induction n as [|n IH]; [by destruct pv|]. simpl. by rewrite IH.
Qed.

(** X1.  After [n] updates a particle with channels in the range of
    [GLubyte] has lost [n] units of color, taken from green first, then
    from red, then from blue, and never more than a channel holds; once
    [n] reaches red + green + blue the particle is black and stays so.
    Alpha never changes. *)
Theorem color_after_n_updates :
  forall (n : nat) (pv : ParticleVertex),
    valid_color (color pv) ->
    let c := color pv in
    let c' := color (Nat.iter n updateParticle pv) in
    c' = faded n c /\
    alpha c' = alpha c /\
    (red c' + green c' + blue c' =
     Z.max 0 (red c + green c + blue c - Z.of_nat n))%Z /\
    ((Z.of_nat n <= green c)%Z ->
       c' = mkColor (red c) (green c - Z.of_nat n)%Z (blue c) (alpha c)) /\
    ((red c + green c + blue c <= Z.of_nat n)%Z ->
       c' = mkColor 0%Z 0%Z 0%Z (alpha c)).
Proof.
  intros n pv Hc. cbv zeta. rewrite iter_updateParticle. simpl.
  rewrite iter_updateColor by done.
  destruct Hc as (Hr & Hg & Hb & Ha). unfold faded, is_GLubyte in *. simpl.
  repeat split; try (intros ?; f_equal); lia.
Qed.

Lemma color_after_n_updates_witness :
  valid_color (color Demo.particle) /\
  color (Nat.iter 120 updateParticle Demo.particle) =
    mkColor 180%Z 0%Z 50%Z 255%Z.
Proof.
  assert (Hv : valid_color (color Demo.particle))
    by (unfold valid_color, is_GLubyte; simpl; lia).
  split; [exact Hv|].
  exact (proj1 (color_after_n_updates 120 Demo.particle Hv)).
Defined.

End FadeFacts.

(* ===================================================================== *)
(** * Further properties: the constructor and the thread's loop *)
(* ===================================================================== *)

Section ProgramFacts.
Local Open Scope nat_scope.
Import StrangeAttractors Tick Invariant.

Lemma initParticles_spec n rand time decay i this :
  initParticles n rand time decay i this =
  mkLists (particleList this ++ (rand <$> seq i n))
          (timeList this ++ ((fun j => expiry (time j) decay) <$> seq i n)).
Proof.
  revert i this. induction n as [|n IH]; intros i this; simpl.
  - rewrite !app_nil_r. by destruct this.
  - rewrite IH. simpl. by rewrite <- !app_assoc.
Qed.

Lemma initialLists_spec rand time :
  initialLists rand time =
  mkLists (rand <$> seq 0 100)
          ((fun i => float_of_double
                       (dadd (time i) (double_of_float (float_of_int 10))))
             <$> seq 0 100).
Proof. unfold initialLists. by rewrite initParticles_spec. Qed.

(** X2.  The constructor leaves 100 particles, the ones drawn, in the
    order drawn, each expiring 10 seconds after the clock reading taken
    when it was made; the queue is empty with room for 100.  Nothing is
    drawn before the first frame, and the first frame makes exactly
    these particles the source of the vertex buffer. *)
Theorem constructor_state :
  forall (rand : nat -> ParticleVertex) (time : Clock),
    let a := create rand time in
    let first :=
      mkLists (rand <$> seq 0 100)
              ((fun i => float_of_double
                           (dadd (time i)
                                 (double_of_float (float_of_int 10))))
                 <$> seq 0 100) in
    initialLists rand time = first /\
    TripleBuffer.slot (particleVertices a) (oldParticleList a) = Some first /\
    oldTimeList a = oldParticleList a /\
    RingBuffer.contents (inputParticles a) = [] /\
    RingBuffer.capacity (inputParticles a) = 100 /\
    display a = None /\
    vertexBuffer (frame a) = Some (100, oldParticleList a) /\
    display (frame a) = Some (rand <$> seq 0 100).
Proof.
  intros rand time a first.
  assert (E : initialLists rand time = first)
    by apply initialLists_spec.
  split; [done|]. subst a. unfold create, display, frame. simpl.
  unfold TripleBuffer.slot. simpl. rewrite E.
  by repeat split.
Qed.

Lemma keptIndices_all time k otl n :
  (forall i, i < n -> alive time k otl i) ->
  keptIndices time k otl n = seq 0 n.
Proof.
  intros Ha. unfold keptIndices.
  assert (H : forall j m, (forall i, j <= i < j + m -> alive time k otl i) ->
              filter (fun i => alive time k otl i) (seq j m) = seq j m).
  { intros j m. revert j. induction m as [|m IH]; intros j Hj; [done|].
    simpl. rewrite filter_cons_True by (apply Hj; lia).
    f_equal. apply IH. intros i Hi. apply Hj. lia. }
  apply H. intros i Hi. apply Ha. lia.
Qed.


Lemma omap_ext_elem {A B} (f g : A -> option B) (l : list A) :
  (forall x, x ∈ l -> f x = g x) -> omap f l = omap g l.
Proof.
  induction l as [|x l IH]; intros H; [done|].
  change (omap f (x :: l))
    with (match f x with Some y => y :: omap f l | None => omap f l end).
  change (omap g (x :: l))
    with (match g x with Some y => y :: omap g l | None => omap g l end).
  rewrite (H x) by left. rewrite IH; [done|]. intros y Hy. apply H. by right.
Qed.

Lemma omap_lookup_seq {A B} (f : A -> B) (l : list A) :
  omap (fun i => f <$> l !! i) (seq 0 (length l)) = f <$> l.
Proof.
  induction l as [|x l IH] using rev_ind; [done|].
  rewrite length_app. simpl. rewrite Nat.add_1_r, seq_S, omap_app. simpl.
  rewrite fmap_app. simpl. f_equal.
  - rewrite <- IH. apply omap_ext_elem. intros i Hi%elem_of_seq.
    rewrite lookup_app_l; [done|lia].
  - by rewrite list_lookup_middle.
Qed.

Lemma newLists_all_alive time decay old queued :
  length (particleList old) = length (timeList old) ->
  (forall i tp, timeList old !! i = Some tp ->
                dgt (double_of_float tp) (time i) = true) ->
  newLists time decay old queued =
  mkLists ((updateParticle <$> particleList old) ++ queued)
          (timeList old ++
           birthTimes time (length (particleList old)) decay queued).
Proof.
  intros Hlen Ha. unfold newLists.
  rewrite keptIndices_all.
  - unfold keptParticles, keptTimes. rewrite omap_lookup_seq.
    rewrite Hlen at 1.
    pose proof (omap_lookup_seq id (timeList old)) as E.
    rewrite list_fmap_id in E. rewrite <- E at 2.
    do 2 f_equal. apply omap_ext_elem. intros i _.
    by destruct (timeList old !! i).
  - intros i Hi. unfold alive.
    destruct (timeList old !! i) as [tp|] eqn:E.
    + simpl. by rewrite (Ha i tp E).
    + apply lookup_ge_None in E. lia.
Qed.




Lemma reachable_ticks n clocks s s' :
  System.reachable s -> ticks n clocks s = Some s' -> System.reachable s'.
Proof.
  revert s'. induction n as [|n IH]; intros s' Hr Ht; simpl in Ht.
  - by injection Ht as <-.
  - destruct (ticks n clocks s) as [s1|] eqn:E; [|done]. simpl in Ht.
    eapply reachable_tick; [|exact Ht]. by apply IH.
Qed.

Lemma ticks_pending n clocks s s' :
  System.reachable s -> System.pending s = false ->
  ticks n clocks s = Some s' -> System.pending s' = false.
Proof.
  revert s'. induction n as [|n IH]; intros s' Hr Hp Ht; simpl in Ht.
  - by injection Ht as <-.
  - destruct (ticks n clocks s) as [s1|] eqn:E; [|done]. simpl in Ht.
    destruct (tick_spec (clocks n) s1) as (_ & s2 & _ & _ & Ht2 & Hp2 & _).
    + by eapply reachable_ticks.
    + by apply IH.
    + rewrite Ht in Ht2. by injection Ht2 as <-.
Qed.

(** X4.  As long as nothing is seeded and no particle expires, [n]
    iterations of the thread's loop post the snapshot in which every
    particle has been updated [n] times, in the same order and with the
    same expiries: the population is fixed and positions follow the
    iterated step. *)
Theorem ticks_while_alive :
  forall (n : nat) (clocks : nat -> Clock) (s : System.t)
         (old : ParticleTimeList),
    System.reachable s -> System.pending s = false ->
    snapshot s = Some old ->
    RingBuffer.contents (inputParticles (System.app s)) = [] ->
    (forall k i tp, k < n -> timeList old !! i = Some tp ->
                    dgt (double_of_float tp) (clocks k i) = true) ->
    exists s',
      ticks n clocks s = Some s' /\
      snapshot s' =
        Some (mkLists (Nat.iter n updateParticle <$> particleList old)
                      (timeList old)) /\
      RingBuffer.contents (inputParticles (System.app s')) = [].
Proof.
  intros n clocks s old Hr Hp Hs Hq. induction n as [|n IH]; intros Ha.
  - exists s. simpl. rewrite list_fmap_id. by destruct old.
  - destruct IH as (s1 & Ht1 & Hs1 & Hq1); [intros k i tp Hk; apply Ha; lia|].
    pose proof (reachable_ticks _ _ _ _ Hr Ht1) as Hr1.
    assert (Hp1 : System.pending s1 = false)
      by exact (ticks_pending n clocks s s1 Hr Hp Ht1).
    destruct (tick_spec (clocks n) s1 Hr1 Hp1)
      as (old1 & s2 & Ho1 & Hlen1 & Ht2 & _ & Hpub2 & Hc2 & _).
    rewrite Hs1 in Ho1. injection Ho1 as <-.
    exists s2. simpl. rewrite Ht1. simpl. split; [done|]. split; [|done].
    unfold snapshot. rewrite Hpub2, last_snoc, Hq1.
    rewrite newLists_all_alive; simpl in *.
    + unfold birthTimes. simpl. rewrite !app_nil_r.
      rewrite <- list_fmap_compose. done.
    + done.
    + intros i tp Hi. apply (Ha n); [lia|done].
Qed.

Lemma ticks_while_alive_witness :
  System.reachable Demo.start /\ System.pending Demo.start = false /\
  exists s',
    ticks 2 (fun _ => Demo.at_time 5) Demo.start = Some s' /\
    snapshot s' =
      Some (mkLists
              (Nat.iter 2 updateParticle <$>
                 particleList (initialLists Demo.rand (Demo.at_time 0)))
              (timeList (initialLists Demo.rand (Demo.at_time 0)))).
Proof.
  assert (Hr : System.reachable Demo.start)
    by (exists Demo.rand, (Demo.at_time 0), []; reflexivity).
  assert (Ha : Forall (fun tp => dgt (double_of_float tp) (double_of_int 5) = true)
                 (timeList (initialLists Demo.rand (Demo.at_time 0))))
    by (rewrite (initialLists_spec Demo.rand (Demo.at_time 0));
        apply Forall_fmap, Forall_forall; intros i _; vm_compute; reflexivity).
  split; [exact Hr|]. split; [reflexivity|].
  destruct (ticks_while_alive 2 (fun _ => Demo.at_time 5) Demo.start
              (initialLists Demo.rand (Demo.at_time 0)) Hr eq_refl eq_refl
              eq_refl) as (s' & Ht & Hs & _).
  - intros k i tp _ Hi. exact (proj1 (Forall_lookup _ _) Ha i tp Hi).
  - exists s'. split; [exact Ht | exact Hs].
Defined.

End ProgramFacts.

(* ===================================================================== *)
(** * Further properties: what [updateMesh] relies on *)
(* ===================================================================== *)

Section SafetyFacts.
Local Open Scope nat_scope.
Import StrangeAttractors Tick Invariant.



(** X6.  [updateMesh] clears the slot it is given before it reads the
    old lists.  Called on the very slot the old pointers designate, it
    therefore keeps no old particle at all: the slot ends up holding
    just the queued particles, with expiries counted from the first
    clock reading. *)
Theorem updateMesh_on_the_old_slot :
  forall (time : Clock) (w : nat) (a : StrangeAttractors.t)
         (this : ParticleTimeList),
    TripleBuffer.slot (particleVertices a) w = Some this ->
    oldParticleList a = w -> oldTimeList a = w ->
    RingBuffer.wf (inputParticles a) ->
    exists a',
      updateMesh time w a = Some a' /\
      TripleBuffer.slot (particleVertices a') w =
        Some (mkLists
                (RingBuffer.contents (inputParticles a))
                (imap (fun j _ => float_of_double
                                    (dadd (time j)
                                          (double_of_float (timeDecay a))))
                      (RingBuffer.contents (inputParticles a)))) /\
      RingBuffer.contents (inputParticles a') = [] /\
      oldParticleList a' = w /\ oldTimeList a' = w.
Proof.
  intros time w a this Hw Ho1 Ho2 Hq.
  pose proof (lookup_lt_Some _ _ _ Hw) as Hlt.
  unfold updateMesh. rewrite Ho1, Ho2.
  unfold TripleBuffer.slot, TripleBuffer.setSlot in *.
  cbn [TripleBuffer.buffer].
  rewrite list_lookup_insert_eq by done. simpl.
  destruct (drain_spec (RingBuffer.size (inputParticles a)) time
              0 (timeDecay a) (inputParticles a) (mkLists [] []) Hq)
    as (q' & Hd & _ & Hc & _); [done|].
  rewrite Hd. simpl. eexists. split; [reflexivity|]. simpl.
  rewrite list_lookup_insert_eq by (by rewrite length_insert).
  done.
Qed.

Lemma updateMesh_on_the_old_slot_witness :
  TripleBuffer.slot (particleVertices (System.app Demo.start)) 0 =
    Some (initialLists Demo.rand (Demo.at_time 0)) /\
  oldParticleList (System.app Demo.start) = 0 /\
  oldTimeList (System.app Demo.start) = 0 /\
  RingBuffer.wf (inputParticles (System.app Demo.start)) /\
  exists a',
    updateMesh (Demo.at_time 5) 0 (System.app Demo.start) = Some a' /\
    TripleBuffer.slot (particleVertices a') 0 = Some (mkLists [] []).
Proof.
  assert (Hq : RingBuffer.wf (inputParticles (System.app Demo.start)))
    by exact (wf_create 100).
  split; [reflexivity|]. split; [reflexivity|]. split; [reflexivity|].
  split; [exact Hq|].
  destruct (updateMesh_on_the_old_slot (Demo.at_time 5) 0
              (System.app Demo.start) _ eq_refl eq_refl eq_refl Hq)
    as (a' & Hu & Hs & _).
  exists a'. split; [exact Hu | exact Hs].
Defined.

End SafetyFacts.

(* ===================================================================== *)
(** * Further properties: opaque particles, the tool, the other variants *)
(* ===================================================================== *)

Section OpaqueFacts.
Local Open Scope nat_scope.
Import StrangeAttractors Tick Invariant.

Lemma GLubyte_of_int_range n : is_GLubyte (GLubyte_of_int n).
Proof. unfold is_GLubyte, GLubyte_of_int. apply Z.mod_pos_bound. lia. Qed.











(** X8.  The tool's frame does nothing while the button is not pressed.
    With the button pressed and room in the queue it puts exactly one
    particle behind the queued ones and touches nothing else; the
    particle sits at the device position plus the drawn offsets, and
    channel values drawn from 32 to 255 are stored as drawn. *)
Theorem tool_frame_effect :
  (forall p d a, SeedParticlesTool.frame false p d a = a) /\
  (forall p d a,
     RingBuffer.wf (inputParticles a) ->
     RingBuffer.count (inputParticles a) <
       RingBuffer.capacity (inputParticles a) ->
     let a' := SeedParticlesTool.frame true p d a in
     RingBuffer.contents (inputParticles a') =
       RingBuffer.contents (inputParticles a) ++
       [SeedParticlesTool.newParticle p d] /\
     RingBuffer.wf (inputParticles a') /\
     particleVertices a' = particleVertices a /\
     oldParticleList a' = oldParticleList a /\
     oldTimeList a' = oldTimeList a /\
     vertexBuffer a' = vertexBuffer a) /\
  (forall p d,
     (32 <= SeedParticlesTool.channel0 d < 256)%Z ->
     (32 <= SeedParticlesTool.channel1 d < 256)%Z ->
     (32 <= SeedParticlesTool.channel2 d < 256)%Z ->
     SeedParticlesTool.newParticle p d =
     mkParticle
       (mkColor (SeedParticlesTool.channel0 d) (SeedParticlesTool.channel1 d)
                (SeedParticlesTool.channel2 d) 255%Z)
       (mkPoint (p0 p + SeedParticlesTool.offset0 d)
                (p1 p + SeedParticlesTool.offset1 d)
                (p2 p + SeedParticlesTool.offset2 d))).
Proof.
  split; [done|]. split.
  - intros p d a Hq Hroom. cbv zeta. simpl.
    destruct (write_room _ (SeedParticlesTool.newParticle p d) Hq Hroom)
      as (q' & -> & Hq' & Hc & _).
    by simpl.
  - intros p d H0 H1 H2. unfold SeedParticlesTool.newParticle, GLubyte_of_int.
    by rewrite !Z.mod_small by lia.
Qed.

Lemma tool_frame_effect_witness :
  RingBuffer.wf (inputParticles (System.app Demo.start)) /\
  (RingBuffer.count (inputParticles (System.app Demo.start)) <
   RingBuffer.capacity (inputParticles (System.app Demo.start))) /\
  RingBuffer.contents
    (inputParticles
       (SeedParticlesTool.frame true (mkPoint Demo.one Demo.one Demo.one)
          (SeedParticlesTool.mkDraws Demo.one Demo.one Demo.one 40%Z 50%Z 60%Z)
          (System.app Demo.start))) =
  [SeedParticlesTool.newParticle (mkPoint Demo.one Demo.one Demo.one)
     (SeedParticlesTool.mkDraws Demo.one Demo.one Demo.one 40%Z 50%Z 60%Z)].
Proof.
  assert (Hq : RingBuffer.wf (inputParticles (System.app Demo.start)))
    by exact (wf_create 100).
  assert (Hroom : RingBuffer.count (inputParticles (System.app Demo.start)) <
                  RingBuffer.capacity (inputParticles (System.app Demo.start)))
    by (simpl; lia).
  split; [exact Hq|]. split; [exact Hroom|].
  exact (proj1 (proj1 (proj2 tool_frame_effect) _ _ _ Hq Hroom)).
Defined.

End OpaqueFacts.

Section VariantFacts.
Local Open Scope nat_scope.

(** [n] iterations of the thread's loop are [n] times a write followed
    by a post. *)
Lemma Animation_thread_run n a :
  Animation.animationThreadMethod n a =
  Animation.app <$>
    Animation.run (concat (replicate n [Animation.Write; Animation.Post]))
      (Animation.mkState a false) /\
  forall s, Animation.run
              (concat (replicate n [Animation.Write; Animation.Post]))
              (Animation.mkState a false) = Some s ->
            Animation.pending s = false.
Proof.
  assert (Hrun : forall tr1 tr2 s,
            Animation.run (tr1 ++ tr2) s =
            Animation.run tr1 s ≫= Animation.run tr2).
  { induction tr1 as [|x tr1 IH]; intros tr2 s; simpl; [done|].
    destruct (Animation.step x s); simpl; [apply IH|done]. }
  induction n as [|n [IH1 IH2]]; [split; [done|by intros s [= <-]]|].
  assert (E : concat (replicate (S n) [Animation.Write; Animation.Post]) =
              concat (replicate n [Animation.Write; Animation.Post]) ++
              [Animation.Write; Animation.Post]).
  { change (S n) with (1 + n). rewrite Nat.add_comm, replicate_add.
    rewrite concat_app. by simpl. }
  rewrite E, Hrun. cbn [Animation.animationThreadMethod]. rewrite IH1.
  destruct (Animation.run _ (Animation.mkState a false)) as [s1|] eqn:H1;
    [|split; [done|by intros s]].
  specialize (IH2 s1 eq_refl). cbn. rewrite IH2.
  unfold Animation.threadIteration.
  destruct (Animation.writeNewValue (Animation.app s1)) as [a'|];
    cbn; [|split; [done|by intros s]].
  split; [done|]. by intros s [= <-].
Qed.

Lemma writes_iterations n :
  writes (concat (replicate n [Animation.Write; Animation.Post])) = n.
Proof.
  induction n as [|n IH]; [reflexivity|]. unfold writes in *.
  cbn [replicate concat app].
  rewrite filter_cons_True by reflexivity.
  rewrite filter_cons_False by (simpl; discriminate).
  cbn [length]. by rewrite IH.
Qed.

Lemma writes_app tr1 tr2 : writes (tr1 ++ tr2) = writes tr1 + writes tr2.
Proof. unfold writes. by rewrite filter_app, length_app. Qed.

(** X9.  In [StrangeAttractorsArray.cpp], in every state the two
    threads reach from the constructor's, the list [opl] designates
    holds the 1000 particles the constructor drew, in the order drawn
    and with their colors, each moved by as many Lorenz steps as the
    thread's loop has written lists.  Between two iterations the slot
    the loop would write is never the one [opl] designates, and any
    number [n] of further iterations succeeds and moves every particle
    [n] steps further. *)
Theorem array_variant_population :
  forall (rand : nat -> ParticleVertex) (tr : list Animation.action)
         (s : Animation.state),
    Animation.run tr (Animation.init rand) = Some s ->
    let a := Animation.app s in
    let after k i :=
      mkParticle (color (rand i))
        (Nat.iter k Lorenz.advance (position (rand i))) in
    TripleBuffer.slot (Animation.particleVertices a) (Animation.opl a) =
      Some ((fun i => after (writes tr) i) <$> seq 0 1000) /\
    (Animation.pending s = false ->
     TripleBuffer.startNewValue (Animation.particleVertices a) <>
       Animation.opl a /\
     forall n, exists a',
       Animation.animationThreadMethod n a = Some a' /\
       TripleBuffer.slot (Animation.particleVertices a') (Animation.opl a') =
         Some ((fun i => after (n + writes tr) i) <$> seq 0 1000)).
Proof.
  intros rand tr s Hrun a after. subst a.
  pose proof (Animation_init_inv rand) as Hinv0.
  pose proof (Animation_run_inv tr _ s Hinv0 Hrun) as Hinv.
  assert (Hinit : TripleBuffer.slot
            (Animation.particleVertices (Animation.app (Animation.init rand)))
            (Animation.opl (Animation.app (Animation.init rand))) =
            Some (rand <$> seq 0 1000)).
  { cbn [Animation.init Animation.app Animation.create
         Animation.particleVertices Animation.opl].
    rewrite Animation_initParticles. reflexivity. }
  assert (Hshape : forall k,
            Nat.iter k moveParticle <$> (rand <$> seq 0 1000) =
            (fun i => after k i) <$> seq 0 1000).
  { intros k. rewrite <- list_fmap_compose. apply list_fmap_ext.
    intros _ i _. simpl. apply iter_moveParticle. }
  split.
  - rewrite (Animation_run_old tr _ s _ Hinv0 Hrun Hinit). f_equal.
    apply Hshape.
  - intros Hp. split; [apply (Animation_write_spec s Hinv Hp)|]. intros n.
    destruct (Animation_thread_run n (Animation.app s)) as [Hth Hpend].
    set (trn := concat (replicate n [Animation.Write; Animation.Post])) in *.
    assert (Hs : Animation.mkState (Animation.app s) false = s)
      by (rewrite <- Hp; by destruct s).
    rewrite Hs in Hth, Hpend.
    assert (Hsome : is_Some (Animation.run trn s)).
    { clear Hth Hpend Hs Hrun. subst trn. revert s Hinv Hp.
      induction n as [|n IH]; intros s Hinv Hp; [by eexists|].
      cbn [replicate concat app Animation.run]. cbn [Animation.step].
      rewrite Hp.
      destruct (Animation_write_spec s Hinv Hp) as (_ & old & _ & Hw).
      pose proof (Animation_step_inv Animation.Write s) as Hstep.
      cbn [Animation.step] in Hstep. rewrite Hp, Hw in *. cbn in *.
      specialize (Hstep _ Hinv eq_refl).
      apply IH; [|done].
      by apply (Animation_step_inv Animation.Post _ _ Hstep). }
    destruct Hsome as [s' Hs'].
    rewrite Hs' in Hth. exists (Animation.app s'). split; [exact Hth|].
    assert (Hall : Animation.run (tr ++ trn) (Animation.init rand) = Some s').
    { clear -Hrun Hs'. revert Hrun. generalize (Animation.init rand).
      induction tr as [|x tr IH]; intros s0 Hrun; simpl in *.
      - by injection Hrun as ->.
      - destruct (Animation.step x s0); [|done]. by apply IH. }
    rewrite (Animation_run_old _ _ s' _ Hinv0 Hall Hinit). f_equal.
    rewrite writes_app. subst trn. rewrite writes_iterations.
    rewrite <- Hshape. by rewrite Nat.add_comm.
Qed.

Lemma array_variant_population_witness :
  exists s a',
    Animation.run [Animation.Frame; Animation.Write; Animation.Post]
      (Animation.init Demo.rand) = Some s /\
    TripleBuffer.slot (Animation.particleVertices (Animation.app s))
      (Animation.opl (Animation.app s)) =
      Some ((fun _ => moveParticle Demo.particle) <$> seq 0 1000) /\
    Animation.animationThreadMethod 2 (Animation.app s) = Some a' /\
    TripleBuffer.slot (Animation.particleVertices a') (Animation.opl a') =
      Some ((fun _ => Nat.iter 3 moveParticle Demo.particle) <$> seq 0 1000).
Proof.
  destruct (Animation.run [Animation.Frame; Animation.Write; Animation.Post]
              (Animation.init Demo.rand)) as [s|] eqn:Hrun;
    [|vm_compute in Hrun; discriminate].
  assert (Hp : Animation.pending s = false).
  { revert Hrun. cbn [Animation.run Animation.step Animation.init
                      Animation.pending Animation.app mbind option_bind].
    destruct (Animation.writeNewValue _); cbn; [|done]. by intros [= <-]. }
  destruct (array_variant_population Demo.rand _ s Hrun) as [Hold Hnext].
  destruct (proj2 (Hnext Hp) 2) as (a' & Hth & Hnew).
  exists s, a'. split; [reflexivity|]. split; [exact Hold|].
  split; [exact Hth | exact Hnew].
Defined.

Lemma fmul_comm (x y : float) : (x * y)%float = (y * x)%float.
Proof.
  destruct x as [x], y as [y]. unfold fmul. simpl. f_equal.
  destruct x as [sx|sx| |sx mx ex], y as [sy|sy| |sy my ey]; simpl;
    try reflexivity; try (by rewrite xorb_comm).
  by rewrite xorb_comm, Pos.mul_comm, Z.add_comm.
Qed.

Lemma Animation1_store_insert (h : list (list ParticleVertex)) pv i ap v f :
  pv < length h -> i < length ap ->
  Animation1.store (<[pv := <[i := v]> ap]> h) pv i f =
  Some (<[pv := <[i := f v]> ap]> h).
Proof.
  intros Hpv Hi. unfold Animation1.store.
  rewrite list_lookup_insert_eq by done. simpl.
  rewrite list_lookup_insert_eq by done. simpl.
  by rewrite !list_insert_insert_eq.
Qed.

Lemma Animation1_load_insert (h : list (list ParticleVertex))
    pv old i ao ap v :
  h !! old = Some ao -> h !! pv = Some ap -> i < length ap ->
  ao !! i = Some v \/ pv = old ->
  Animation1.load (<[pv := <[i := v]> ap]> h) old i = Some v.
Proof.
  intros Ho Hp Hi Hv. unfold Animation1.load.
  destruct (decide (pv = old)) as [->|Hne].
  - rewrite list_lookup_insert_eq by (by eapply lookup_lt_Some). simpl.
    by rewrite list_lookup_insert_eq.
  - rewrite list_lookup_insert_ne by done. rewrite Ho. simpl.
    by destruct Hv.
Qed.

(** One pass of the loop body writes the moved particle to element [i]
    of the target array, whether or not the target is the old array. *)
Lemma Animation1_iteration (h : list (list ParticleVertex))
    pv old i ao ap o :
  h !! old = Some ao -> h !! pv = Some ap ->
  ao !! i = Some o -> i < length ap ->
  Animation1.iteration h pv old i =
  Some (<[pv := <[i := moveParticle o]> ap]> h).
Proof.
  intros Ho Hp Hoi Hi.
  pose proof (lookup_lt_Some _ _ _ Hp) as Hpv.
  destruct (lookup_lt_is_Some_2 ap i Hi) as [q Hq].
  assert (Hq' : pv = old -> q = o).
  { intros ->. rewrite Ho in Hp. injection Hp as ->. congruence. }
  unfold Animation1.iteration.
  assert (E0 : Animation1.load h old i = Some o)
    by (unfold Animation1.load; by rewrite Ho).
  rewrite E0. simpl.
  rewrite <- (list_insert_id h pv ap Hp) at 1.
  rewrite <- (list_insert_id ap i q Hq) at 1.
  rewrite Animation1_store_insert by done. simpl.
  destruct (decide (pv = old)) as [Heq|Hne].
  - specialize (Hq' Heq). subst q.
    repeat (rewrite (Animation1_load_insert h pv old i ao ap) by (done || by right);
            simpl; rewrite Animation1_store_insert by done; simpl).
    do 3 f_equal. destruct o as [[cr cg cb ca] [x y z]].
    unfold moveParticle, Lorenz.advance, Lorenz.dot, translate, scale.
    simpl. unfold Animation1.set_color3, Animation1.set_color2,
      Animation1.set_color1, Animation1.set_color0,
      Animation1.set_position2, Animation1.set_position1,
      Animation1.set_position0. simpl.
    by rewrite !(fmul_comm Lorenz.t).
  - assert (L : forall v, Animation1.load (<[pv := <[i := v]> ap]> h) old i
                          = Some o).
    { intros v. unfold Animation1.load.
      rewrite list_lookup_insert_ne by done. by rewrite Ho. }
    repeat (rewrite L; simpl;
            rewrite Animation1_store_insert by done; simpl).
    do 3 f_equal. destruct o as [[cr cg cb ca] [x y z]].
    unfold moveParticle, Lorenz.advance, Lorenz.dot, translate, scale.
    simpl. unfold Animation1.set_color3, Animation1.set_color2,
      Animation1.set_color1, Animation1.set_color0,
      Animation1.set_position2, Animation1.set_position1,
      Animation1.set_position0. simpl.
    by rewrite !(fmul_comm Lorenz.t).
Qed.

Lemma Animation1_loop (pv old n : nat) :
  forall (i : nat) (h : list (list ParticleVertex)) ao ap,
    h !! old = Some ao -> h !! pv = Some ap ->
    i + n <= length ao -> i + n <= length ap ->
    Animation1.loop n i h pv old =
    Some (<[pv := take i ap ++ (moveParticle <$> take n (drop i ao))
                    ++ drop (i + n) ap]> h).
Proof.
  induction n as [|n IH]; intros i h ao ap Ho Hp Hlo Hlp.
  - simpl. rewrite Nat.add_0_r, take_drop. by rewrite list_insert_id.
  - destruct (lookup_lt_is_Some_2 ao i ltac:(lia)) as [o Hoi].
    pose proof (lookup_lt_Some _ _ _ Hp) as Hpv.
    cbn [Animation1.loop].
    rewrite (Animation1_iteration h pv old i ao ap o) by (done || lia).
    simpl.
    set (ap' := <[i := moveParticle o]> ap).
    assert (Hp' : <[pv := ap']> h !! pv = Some ap')
      by by rewrite list_lookup_insert_eq.
    assert (Ho' : exists ao', <[pv := ap']> h !! old = Some ao' /\
                              length ao' = length ao /\
                              drop (S i) ao' = drop (S i) ao).
    { destruct (decide (pv = old)) as [->|Hne].
      - exists ap'. split; [done|].
        rewrite Ho in Hp. injection Hp as ->.
        unfold ap'. split; [by rewrite length_insert|].
        by rewrite drop_insert_lt by lia.
      - exists ao. by rewrite list_lookup_insert_ne. }
    destruct Ho' as (ao' & Ho' & Hlen & Hdrop).
    rewrite (IH (S i) _ ao' ap' Ho' Hp')
      by (unfold ap'; rewrite ?length_insert; lia).
    rewrite list_insert_insert_eq. do 2 f_equal.
    rewrite Hdrop. unfold ap'.
    rewrite (take_S_r _ _ _ (list_lookup_insert_eq ap i (moveParticle o)
                               ltac:(lia))).
    rewrite take_insert_ge by lia.
    rewrite drop_insert_lt by lia.
    rewrite (drop_S ao o i Hoi). cbn [take fmap list_fmap].
    rewrite <- app_assoc. simpl.
    by replace (i + S n) with (S (i + n)) by lia.
Qed.

(** X10.  [Animation::updateMesh] of [StrangeAttractors1.cpp] on raw
    arrays: when the target array and the old array both hold at least
    [particleSize] vertices, the call succeeds, the first [particleSize]
    elements of the target become the old elements moved by one Lorenz
    step with their colors copied, everything behind them and every
    other array stay as they were, and [oldParticles] designates the
    target.  This holds as well when the target is the old array
    itself. *)
Theorem Animation1_updateMesh_spec :
  forall (a : Animation1.t) (pv : nat) (ao ap : list ParticleVertex),
    Animation1.arrays a !! Animation1.oldParticles a = Some ao ->
    Animation1.arrays a !! pv = Some ap ->
    Animation1.particleSize a <= length ao ->
    Animation1.particleSize a <= length ap ->
    exists a',
      Animation1.updateMesh pv a = Some a' /\
      Animation1.particleSize a' = Animation1.particleSize a /\
      Animation1.oldParticles a' = pv /\
      Animation1.arrays a' !! pv =
        Some ((moveParticle <$> take (Animation1.particleSize a) ao)
                ++ drop (Animation1.particleSize a) ap) /\
      (forall p, p <> pv ->
                 Animation1.arrays a' !! p = Animation1.arrays a !! p).
Proof.
  intros a pv ao ap Ho Hp Hlo Hlp. unfold Animation1.updateMesh.
  rewrite (Animation1_loop pv _ _ 0 _ ao ap Ho Hp) by (simpl; lia).
  simpl. eexists. split; [reflexivity|]. simpl.
  pose proof (lookup_lt_Some _ _ _ Hp) as Hpv.
  repeat split.
  - by rewrite list_lookup_insert_eq.
  - intros p Hne. by rewrite list_lookup_insert_ne.
Qed.

Lemma Animation1_updateMesh_spec_witness :
  exists a',
    Animation1.updateMesh 0
      (Animation1.mk 1 [[Demo.particle]; [Demo.particle]] 0) = Some a' /\
    Animation1.particleSize a' = 1 /\
    Animation1.oldParticles a' = 0 /\
    Animation1.arrays a' !! 0 =
      Some ((moveParticle <$> take 1 [Demo.particle])
              ++ drop 1 [Demo.particle]) /\
    (forall p, p <> 0 ->
       Animation1.arrays a' !! p =
       [[Demo.particle]; [Demo.particle]] !! p).
Proof.
  apply (Animation1_updateMesh_spec
           (Animation1.mk 1 [[Demo.particle]; [Demo.particle]] 0) 0
           [Demo.particle] [Demo.particle]);
    [reflexivity | reflexivity | simpl; lia | simpl; lia].
Defined.

Lemma InputP1_addLoop_app (apl : list ParticleVertex) draws :
  forall pl j,
    InputP1.addLoop pl apl draws j =
    pl ++ imap (fun k pv =>
                  let '(c0, c1, c2) := draws (j + k) in
                  mkParticle
                    (mkColor (GLubyte_of_int c0) (GLubyte_of_int c1)
                             (GLubyte_of_int c2) 255%Z) (position pv))
               apl.
Proof.
  induction apl as [|pv apl IH]; intros pl j; simpl.
  - by rewrite app_nil_r.
  - destruct (draws j) as [[c0 c1] c2] eqn:E.
    rewrite IH, <- app_assoc. simpl. rewrite Nat.add_0_r, E.
    do 2 f_equal. apply imap_ext. intros k x _. simpl.
    by replace (j + S k) with (S (j + k)) by lia.
Qed.

(** X11.  [Animation::addParticles] of [StrangeAttractorsInputP1.cpp],
    called with two different lists, leaves the particles already in
    [pl] in place and appends one particle for each particle of [apl],
    in the order of [apl], at the position of the original and opaque
    whatever color the original had; [apl] and every other list stay
    as they were.  Called with [apl] pointing to [pl] itself it does
    nothing if the list is empty, and its behaviour is undefined
    otherwise. *)
Theorem addParticles_appends :
  forall (h : list (list ParticleVertex)) (pl apl : nat)
         (p a : list ParticleVertex) (draws : nat -> Z * Z * Z),
    h !! pl = Some p -> h !! apl = Some a ->
    (pl <> apl ->
     exists h' p',
       InputP1.addParticles h pl apl draws = Some h' /\
       h' !! pl = Some p' /\
       (forall i, i <> pl -> h' !! i = h !! i) /\
       length p' = length p + length a /\
       take (length p) p' = p /\
       position <$> drop (length p) p' = position <$> a /\
       Forall opaque (drop (length p) p')) /\
    (pl = apl ->
     InputP1.addParticles h pl apl draws =
     match a with [] => Some h | _ :: _ => None end).
Proof.
  intros h pl apl p a draws Hp Ha. unfold InputP1.addParticles.
  rewrite Hp, Ha. simpl. split.
  - intros Hne. rewrite decide_False by done.
    rewrite InputP1_addLoop_app. eexists. eexists.
    split; [reflexivity|].
    split; [apply list_lookup_insert_eq; by eapply lookup_lt_Some|].
    split; [intros i Hi; by apply list_lookup_insert_ne|].
    rewrite take_app_length, drop_app_length.
    rewrite length_app, length_imap. repeat split.
    + apply list_eq. intros k.
      rewrite !list_lookup_fmap, list_lookup_imap.
      destruct (a !! k) as [pv|]; [|done]. simpl.
      by destruct (draws k) as [[c0 c1] c2].
    + apply Forall_forall. intros pv Hpv.
      apply list_elem_of_lookup in Hpv as [k Hk].
      rewrite list_lookup_imap in Hk.
      destruct (a !! k) as [qv|]; [|done]. simpl in Hk.
      destruct (draws k) as [[c0 c1] c2]. injection Hk as <-.
      split; [|done]. repeat split; simpl;
        try apply GLubyte_of_int_range; unfold is_GLubyte; lia.
  - intros Heq. by rewrite decide_True.
Qed.

Lemma addParticles_appends_witness :
  exists h',
    InputP1.addParticles [[Demo.particle]; [Demo.seedA; Demo.seedB]] 0 1
      (fun _ => (40, 50, 60)%Z) = Some h' /\
    h' !! 0 =
      Some [Demo.particle;
            mkParticle (mkColor 40%Z 50%Z 60%Z 255%Z) (position Demo.seedA);
            mkParticle (mkColor 40%Z 50%Z 60%Z 255%Z) (position Demo.seedB)] /\
    h' !! 1 = Some [Demo.seedA; Demo.seedB].
Proof.
  destruct (proj1 (addParticles_appends
                     [[Demo.particle]; [Demo.seedA; Demo.seedB]] 0 1
                     [Demo.particle] [Demo.seedA; Demo.seedB]
                     (fun _ => (40, 50, 60)%Z) eq_refl eq_refl)
              ltac:(lia))
    as (h' & p' & Hadd & Hp' & Hrest & _).
  exists h'. split; [exact Hadd|].
  assert (E : h' = [[Demo.particle;
                     mkParticle (mkColor 40%Z 50%Z 60%Z 255%Z) (position Demo.seedA);
                     mkParticle (mkColor 40%Z 50%Z 60%Z 255%Z) (position Demo.seedB)];
                    [Demo.seedA; Demo.seedB]])
    by (injection Hadd as <-; reflexivity).
  rewrite E. split; reflexivity.
Defined.

End VariantFacts.
